(** * Minesweeper-AI: the knowledge base and inference engine of
    [minesweeper.py], embedded in Rocq.

    Cells are pairs of Python integers, cell sets are Python sets, the
    knowledge base is a Python list of [Sentence] objects that are updated in
    place.  Every [Sentence] owns a set of its own ([set(cells)] in the
    constructor, a fresh difference in the subset rule), so the list of
    objects is modelled as a list of records that is rewritten as a whole when
    a cell is marked. *)

From stdpp Require Import base numbers list sets gmap fin_sets.

Open Scope Z_scope.

(** ** Data model *)

(** A cell [(i, j)]: a tuple of two Python integers. *)
Abbreviation Cell := (Z * Z)%type.

(** [class Sentence]: a set of cells and a count. *)
Record Sentence := mkSentence { cells : gset Cell; count : Z }.

(** [Sentence.__eq__] compares the cells and the count, which is equality of
    the record. *)
#[global] Instance Sentence_eq_dec : EqDecision Sentence.
Proof. solve_decision. Defined.

(** [class MinesweeperAI]. *)
Record AI := mkAI {
  height : Z;
  width : Z;
  moves_made : gset Cell;
  mines : gset Cell;
  safes : gset Cell;
  knowledge : list Sentence
}.

(** [MinesweeperAI.__init__]. *)
Definition init (h w : Z) : AI :=
  {| height := h; width := w; moves_made := ∅; mines := ∅; safes := ∅;
     knowledge := [] |}.

(** ** [class Sentence] *)

Module Sent.

(** [len(self.cells) == self.count and self.count > 0] *)
Definition known_mines (s : Sentence) : gset Cell :=
  if bool_decide (Z.of_nat (size (cells s)) = count s ∧ count s > 0)
  then cells s else ∅.

(** [self.count == 0] *)
Definition known_safes (s : Sentence) : gset Cell :=
  if bool_decide (count s = 0) then cells s else ∅.

Definition mark_mine (c : Cell) (s : Sentence) : Sentence :=
  if bool_decide (c ∈ cells s)
  then {| cells := cells s ∖ {[c]}; count := count s - 1 |}
  else s.

Definition mark_safe (c : Cell) (s : Sentence) : Sentence :=
  if bool_decide (c ∈ cells s)
  then {| cells := cells s ∖ {[c]}; count := count s |}
  else s.

End Sent.

(** ** [class MinesweeperAI]: marking *)

Definition set_knowledge (k : list Sentence) (a : AI) : AI :=
  {| height := height a; width := width a; moves_made := moves_made a;
     mines := mines a; safes := safes a; knowledge := k |}.

(** [self.mines.add(cell)], then [sentence.mark_mine(cell)] for every
    sentence of the knowledge base. *)
Definition mark_mine (c : Cell) (a : AI) : AI :=
  {| height := height a; width := width a; moves_made := moves_made a;
     mines := {[c]} ∪ mines a; safes := safes a;
     knowledge := Sent.mark_mine c <$> knowledge a |}.

Definition mark_safe (c : Cell) (a : AI) : AI :=
  {| height := height a; width := width a; moves_made := moves_made a;
     mines := mines a; safes := {[c]} ∪ safes a;
     knowledge := Sent.mark_safe c <$> knowledge a |}.

(** ** [add_knowledge], lines 197-224: the observation sentence *)

(** [0 <= i < self.height and 0 <= j < self.width] *)
Definition in_bounds (h w : Z) (p : Cell) : Prop :=
  0 ≤ p.1 < h ∧ 0 ≤ p.2 < w.

#[global] Instance in_bounds_dec h w p : Decision (in_bounds h w p).
Proof. unfold in_bounds. apply _. Defined.

(** [range(x - 1, x + 2)] *)
Definition range3 (x : Z) : list Z := [x - 1; x; x + 1].

(** The cells the two nested [for] loops visit, in the order they visit
    them. *)
Definition window (c : Cell) : list Cell :=
  i ← range3 c.1; (j ← range3 c.2; [(i, j)]).

(** One iteration of the loop body: the running [count] and the list
    [undetermined_cells]. *)
Definition scan_step (a : AI) (c : Cell) (acc : Z * list Cell) (p : Cell)
    : Z * list Cell :=
  if bool_decide (p = c) then acc
  else if bool_decide (p ∈ mines a) then (acc.1 - 1, acc.2)
  else if bool_decide (in_bounds (height a) (width a) p ∧ (p ∉ safes a)
                       ∧ (p ∉ moves_made a))
       then (acc.1, acc.2 ++ [p])
  else acc.

Definition scan (a : AI) (c : Cell) (n : Z) : Z * list Cell :=
  foldl (scan_step a c) (n, []) (window c).

(** Lines 197-224: record the move, mark the cell safe, build the sentence
    of the undetermined neighbours and append it. *)
Definition observe (a : AI) (c : Cell) (n : Z) : AI :=
  let a1 := {| height := height a; width := width a;
               moves_made := {[c]} ∪ moves_made a;
               mines := mines a; safes := safes a;
               knowledge := knowledge a |} in
  let a2 := mark_safe c a1 in
  let r := scan a2 c n in
  set_knowledge (knowledge a2 ++ [mkSentence (list_to_set r.2) r.1]) a2.

(** ** [add_knowledge], lines 228-234: direct extraction *)

(** What the pass does when the [for] loop is at index [k].  The sentence is
    read again after the safes were marked, as the object was changed in
    place; both inner loops run over a copy of the set. *)
Definition extract_at (a : AI) (k : nat) : AI :=
  match knowledge a !! k with
  | None => a
  | Some s =>
      let a1 := if bool_decide (Sent.known_safes s ≠ ∅)
                then foldl (λ x c, mark_safe c x) a (elements (Sent.known_safes s))
                else a in
      match knowledge a1 !! k with
      | None => a1
      | Some s' =>
          if bool_decide (Sent.known_mines s' ≠ ∅)
          then foldl (λ x c, mark_mine c x) a1 (elements (Sent.known_mines s'))
          else a1
      end
  end.

Definition extraction (a : AI) : AI :=
  foldl extract_at a (seq 0 (length (knowledge a))).

(** ** [add_knowledge], lines 237-253: subset elimination *)

(** The loop state: the list, the positions of the two [for] loops in it and
    [new_inference_made].  A Python [for] over a list that grows while it is
    iterated reads ever the next index until it is past the end. *)
Record Loop := mkLoop {
  lk : list Sentence; li : nat; lj : nat; lflag : bool
}.

(** The inference of a pair, when there is one. *)
Definition infer (s t : Sentence) : option Sentence :=
  if bool_decide (cells t ⊆ cells s)
  then if bool_decide (count s ≠ 0 ∧ count t ≠ 0 ∧ s ≠ t)
       then Some {| cells := cells s ∖ cells t; count := count s - count t |}
       else None
  else None.

(** One step: the end of a pass, the end of an inner loop, or one pair. *)
Definition step (st : Loop) : Loop + list Sentence :=
  match lk st !! li st with
  | None =>
      if lflag st then inl (mkLoop (lk st) 0 0 false) else inr (lk st)
  | Some s =>
      match lk st !! lj st with
      | None => inl (mkLoop (lk st) (S (li st)) 0 (lflag st))
      | Some t =>
          match infer s t with
          | Some n =>
              if bool_decide (n ∈ lk st)
              then inl (mkLoop (lk st) (li st) (S (lj st)) (lflag st))
              else inl (mkLoop (lk st ++ [n]) (li st) (S (lj st)) true)
          | None => inl (mkLoop (lk st) (li st) (S (lj st)) (lflag st))
          end
      end
  end.

Fixpoint run (fuel : nat) (st : Loop) : option (list Sentence) :=
  match fuel with
  | O => None
  | S f => match step st with
           | inr k => Some k
           | inl st' => run f st'
           end
  end.

(** [while True] starts its first pass with the flag reset. *)
Definition subset_loop (fuel : nat) (k : list Sentence) : option (list Sentence) :=
  run fuel (mkLoop k 0 0 false).

(** ** [add_knowledge] *)

Definition add_knowledge (fuel : nat) (a : AI) (c : Cell) (n : Z) : option AI :=
  let a1 := extraction (observe a c n) in
  match subset_loop fuel (knowledge a1) with
  | Some k => Some (set_knowledge k a1)
  | None => None
  end.

(** ** Move selection *)

(** [make_safe_move]: the first cell of [self.safes], in the order the set is
    iterated, that is not in [self.moves_made].  The function assigns
    nothing; the state is returned beside the answer to say so. *)
Definition make_safe_move (a : AI) : option Cell * AI :=
  (head (filter (λ c, c ∉ moves_made a) (elements (safes a))), a).

(** [range(n)] *)
Definition range (n : Z) : list Z := seqZ 0 n.

(** [make_random_move]: [r] stands for the draw of [random.choice]. *)
Definition make_random_move (r : nat) (a : AI) : option Cell * AI :=
  let possible_moves :=
    filter (λ p, (p ∉ moves_made a) ∧ (p ∉ mines a))
           (i ← range (height a); (j ← range (width a); [(i, j)])) in
  (if bool_decide (0 < length possible_moves)%nat
   then possible_moves !! (r `mod` length possible_moves)%nat
   else None, a).

(** ** [class Minesweeper]: the board that answers the observations *)

Module Game.

(** The board array and [self.mines] hold the same cells (lines 29-31); the
    set stands for both. *)
Record t := mk { height : Z; width : Z; mines : gset Cell }.

(** Mines are drawn with [randrange(height)] and [randrange(width)]. *)
Definition well_formed (g : t) : Prop :=
  set_Forall (in_bounds (height g) (width g)) (mines g).

Definition is_mine (g : t) (c : Cell) : bool := bool_decide (c ∈ mines g).

Definition nearby_step (g : t) (c : Cell) (cnt : Z) (p : Cell) : Z :=
  if bool_decide (p = c) then cnt
  else if bool_decide (in_bounds (height g) (width g) p)
       then if bool_decide (p ∈ mines g) then cnt + 1 else cnt
       else cnt.

Definition nearby_mines (g : t) (c : Cell) : Z :=
  foldl (nearby_step g c) 0 (window c).

End Game.

(** ** Reachable states *)

(** States a driver can bring a fresh solver to with the three public
    operations, whatever cells and counts it passes. *)
Inductive reachable (h w : Z) : AI → Prop :=
  | reach_init : reachable h w (init h w)
  | reach_observe a c n fuel a' :
      reachable h w a → add_knowledge fuel a c n = Some a' → reachable h w a'
  | reach_safe_move a : reachable h w a → reachable h w (make_safe_move a).2
  | reach_random_move a r :
      reachable h w a → reachable h w (make_random_move r a).2.

(** The same with every cell inside the grid and no count below zero. *)
Inductive reachable_valid (h w : Z) : AI → Prop :=
  | rv_init : reachable_valid h w (init h w)
  | rv_observe a c n fuel a' :
      reachable_valid h w a → in_bounds h w c → 0 ≤ n →
      add_knowledge fuel a c n = Some a' → reachable_valid h w a'
  | rv_safe_move a :
      reachable_valid h w a → reachable_valid h w (make_safe_move a).2
  | rv_random_move a r :
      reachable_valid h w a → reachable_valid h w (make_random_move r a).2.

(** States reached by playing a game: the solver has the board's size, each
    observed cell is no mine and comes with the board's count for it, as the
    docstring of [add_knowledge] asks. *)
Inductive played (g : Game.t) : AI → Prop :=
  | played_init : played g (init (Game.height g) (Game.width g))
  | played_observe a c fuel a' :
      played g a → Game.is_mine g c = false →
      add_knowledge fuel a c (Game.nearby_mines g c) = Some a' →
      played g a'
  | played_safe_move a : played g a → played g (make_safe_move a).2
  | played_random_move a r : played g a → played g (make_random_move r a).2.

(** ** Invariants used below *)

(** A sentence says the truth about the board. *)
Definition holds (g : Game.t) (s : Sentence) : Prop :=
  count s = Z.of_nat (size (cells s ∩ Game.mines g)).

(** The solver's knowledge agrees with the board. *)
Record consistent (g : Game.t) (a : AI) : Prop := mkConsistent {
  cons_height : height a = Game.height g;
  cons_width : width a = Game.width g;
  cons_mines : mines a ⊆ Game.mines g;
  cons_safes : safes a ## Game.mines g;
  cons_moves : moves_made a ## Game.mines g;
  cons_knowledge : Forall (holds g) (knowledge a)
}.

(** The statement collection of [k'] continues the one of [k]: every entry
    of [k] is still at its index, with cells and count possibly taken away
    by marking. *)
Definition continues (k k' : list Sentence) : Prop :=
  ∀ i s, k !! i = Some s →
    ∃ s', k' !! i = Some s' ∧ cells s' ⊆ cells s ∧ count s' ≤ count s.

(** The state the extraction pass is in when its loop reaches index [k]. *)
Definition extraction_upto (k : nat) (a : AI) : AI :=
  foldl extract_at a (seq 0 k).

(** ** The observation sentence in the words of the specification *)

(** The up-to-8 cells adjacent to [c]. *)
Definition neighbours (c : Cell) : gset Cell :=
  list_to_set [(c.1 - 1, c.2 - 1); (c.1 - 1, c.2); (c.1 - 1, c.2 + 1);
               (c.1, c.2 - 1); (c.1, c.2 + 1);
               (c.1 + 1, c.2 - 1); (c.1 + 1, c.2); (c.1 + 1, c.2 + 1)].

(** In-bounds neighbours that are in none of the three sets. *)
Definition undetermined (a : AI) (c : Cell) : gset Cell :=
  filter (λ p, in_bounds (height a) (width a) p)
         (neighbours c ∖ mines a ∖ safes a ∖ moves_made a).

(** The given count minus the neighbours that are known mines. *)
Definition adjusted_count (a : AI) (c : Cell) (n : Z) : Z :=
  n - Z.of_nat (size (neighbours c ∩ mines a)).

(** ** All subsets of a list of cells, for counting sentences *)

Fixpoint subsets (l : list Cell) : list (gset Cell) :=
  match l with
  | [] => [∅]
  | x :: l' => subsets l' ++ (({[x]} ∪.) <$> subsets l')
  end.

(** * Properties *)

(** ** Marking a sentence *)

Lemma Sent_mark_safe_cells c s : cells (Sent.mark_safe c s) = cells s ∖ {[c]}.
Proof. unfold Sent.mark_safe. case_bool_decide; simpl; set_solver. Qed.

Lemma Sent_mark_safe_count c s : count (Sent.mark_safe c s) = count s.
Proof. unfold Sent.mark_safe. by case_bool_decide. Qed.

Lemma Sent_mark_mine_cells c s : cells (Sent.mark_mine c s) = cells s ∖ {[c]}.
Proof. unfold Sent.mark_mine. case_bool_decide; simpl; set_solver. Qed.

Lemma Sent_mark_mine_count c s :
  count (Sent.mark_mine c s) = count s - (if bool_decide (c ∈ cells s) then 1 else 0).
Proof. unfold Sent.mark_mine. case_bool_decide; simpl; lia. Qed.

Lemma Sent_mark_mine_count_le c s : count (Sent.mark_mine c s) ≤ count s.
Proof. rewrite Sent_mark_mine_count. case_bool_decide; lia. Qed.

Lemma Sent_mark_safe_absent c s : c ∉ cells s → Sent.mark_safe c s = s.
Proof. intros. unfold Sent.mark_safe. by rewrite bool_decide_eq_false_2. Qed.

Lemma Sent_mark_mine_absent c s : c ∉ cells s → Sent.mark_mine c s = s.
Proof. intros. unfold Sent.mark_mine. by rewrite bool_decide_eq_false_2. Qed.

Lemma sentence_eq s t : cells s = cells t → count s = count t → s = t.
Proof. destruct s, t; simpl; congruence. Qed.

(** ** [continues] is a preorder that marking respects *)

Lemma continues_refl k : continues k k.
Proof. intros i s ?. by exists s. Qed.

Lemma continues_trans k1 k2 k3 :
  continues k1 k2 → continues k2 k3 → continues k1 k3.
Proof.
  intros H12 H23 i s Hs.
  destruct (H12 i s Hs) as (s2 & Hs2 & ? & ?).
  destruct (H23 i s2 Hs2) as (s3 & Hs3 & ? & ?).
  exists s3; split_and!; [done | set_solver | lia].
Qed.

Lemma continues_app k ext : continues k (k ++ ext).
Proof.
  intros i s Hs. exists s; split_and!; [|done|lia].
  by apply lookup_app_l_Some.
Qed.

Lemma continues_length k k' : continues k k' → (length k ≤ length k')%nat.
Proof.
  intros Hc. destruct (decide (length k ≤ length k')%nat) as [|Hn]; [done|].
  destruct (lookup_lt_is_Some_2 k (length k')) as [s Hs]; [lia|].
  destruct (Hc _ _ Hs) as (s' & Hs' & _).
  apply lookup_lt_Some in Hs'. lia.
Qed.

Lemma continues_fmap (f : Sentence → Sentence) k :
  (∀ s, cells (f s) ⊆ cells s ∧ count (f s) ≤ count s) →
  continues k (f <$> k).
Proof.
  intros Hf i s Hs. exists (f s). rewrite list_lookup_fmap, Hs.
  split; [done | apply Hf].
Qed.

(** ** What marking does to the solver *)

(** One state extends another: the three sets grew, the size is the same,
    the statement list has the same length and continues the old one, and a
    cell that left a sentence went to the safes or to the mines. *)
Record extends (a a' : AI) : Prop := mkExtends {
  ext_height : height a' = height a;
  ext_width : width a' = width a;
  ext_moves : moves_made a ⊆ moves_made a';
  ext_mines : mines a ⊆ mines a';
  ext_safes : safes a ⊆ safes a';
  ext_length : length (knowledge a') = length (knowledge a);
  ext_knowledge : continues (knowledge a) (knowledge a');
  ext_removed : ∀ i s s',
    knowledge a !! i = Some s → knowledge a' !! i = Some s' →
    cells s ⊆ cells s' ∪ safes a' ∪ mines a'
}.

Lemma extends_refl a : extends a a.
Proof.
  split; try done; [apply continues_refl|].
  intros i s s' ? ?. simplify_eq. set_solver.
Qed.

Lemma extends_trans a1 a2 a3 : extends a1 a2 → extends a2 a3 → extends a1 a3.
Proof.
  intros [Hh1 Hw1 Hmv1 Hmi1 Hsa1 Hl1 Hk1 Hr1] [Hh2 Hw2 Hmv2 Hmi2 Hsa2 Hl2 Hk2 Hr2].
  split.
  - congruence.
  - congruence.
  - by transitivity (moves_made a2).
  - by transitivity (mines a2).
  - by transitivity (safes a2).
  - congruence.
  - by eapply continues_trans.
  - intros i s s3 Hs Hs3.
    destruct (Hk1 i s Hs) as (s2 & Hs2 & _).
    specialize (Hr1 i s s2 Hs Hs2).
    specialize (Hr2 i s2 s3 Hs2 Hs3).
    clear -Hr1 Hr2 Hmi2 Hsa2. set_solver.
Qed.

Lemma mark_safe_extends c a : extends a (mark_safe c a).
Proof.
  split; simpl.
  - done.
  - done.
  - done.
  - done.
  - apply union_subseteq_r.
  - by rewrite length_fmap.
  - apply continues_fmap. intros s.
    rewrite Sent_mark_safe_cells, Sent_mark_safe_count. split; [set_solver|lia].
  - intros i s s' Hs. rewrite list_lookup_fmap, Hs. intros [= <-].
    rewrite Sent_mark_safe_cells. intros p Hp.
    destruct (decide (p = c)); set_solver.
Qed.

Lemma mark_mine_extends c a : extends a (mark_mine c a).
Proof.
  split; simpl.
  - done.
  - done.
  - done.
  - apply union_subseteq_r.
  - done.
  - by rewrite length_fmap.
  - apply continues_fmap. intros s.
    rewrite Sent_mark_mine_cells. split; [set_solver|apply Sent_mark_mine_count_le].
  - intros i s s' Hs. rewrite list_lookup_fmap, Hs. intros [= <-].
    rewrite Sent_mark_mine_cells. intros p Hp.
    destruct (decide (p = c)); set_solver.
Qed.

Lemma foldl_extends {B} (f : AI → B → AI) (l : list B) a :
  (∀ x c, extends x (f x c)) → extends a (foldl f a l).
Proof.
  intros Hf. revert a. induction l as [|c l IH]; intros a; simpl.
  - apply extends_refl.
  - eapply extends_trans; [apply Hf | apply IH].
Qed.

Lemma mark_safes_extends l a : extends a (foldl (λ x c, mark_safe c x) a l).
Proof. apply foldl_extends. intros. apply mark_safe_extends. Qed.

Lemma mark_mines_extends l a : extends a (foldl (λ x c, mark_mine c x) a l).
Proof. apply foldl_extends. intros. apply mark_mine_extends. Qed.

Lemma extract_at_extends a k : extends a (extract_at a k).
Proof.
  unfold extract_at. destruct (knowledge a !! k) as [s|]; [|apply extends_refl].
  set (a1 := if bool_decide _ then _ else a).
  assert (extends a a1) as H1.
  { subst a1. case_bool_decide; [apply mark_safes_extends | apply extends_refl]. }
  destruct (knowledge a1 !! k) as [s'|]; [|done].
  case_bool_decide; [|done].
  eapply extends_trans; [done | apply mark_mines_extends].
Qed.

Lemma extraction_upto_extends k a : extends a (extraction_upto k a).
Proof.
  unfold extraction_upto. generalize (seq 0 k). intros l. revert a.
  induction l as [|i l IH]; intros a; simpl; [apply extends_refl|].
  eapply extends_trans; [apply extract_at_extends | apply IH].
Qed.

Lemma extraction_extends a : extends a (extraction a).
Proof. apply extraction_upto_extends. Qed.

Lemma extraction_upto_S k a :
  extraction_upto (S k) a = extract_at (extraction_upto k a) k.
Proof. unfold extraction_upto. by rewrite seq_S, foldl_app. Qed.

Lemma extraction_from_upto k a :
  (k ≤ length (knowledge a))%nat →
  extraction a =
  foldl extract_at (extraction_upto k a) (seq k (length (knowledge a) - k)).
Proof.
  intros Hk. unfold extraction, extraction_upto.
  replace (length (knowledge a)) with (k + (length (knowledge a) - k))%nat at 1 by lia.
  by rewrite seq_app, foldl_app.
Qed.

Lemma foldl_extract_extends l a : extends a (foldl extract_at a l).
Proof. apply foldl_extends. intros. apply extract_at_extends. Qed.

(** ** The subset-elimination loop: what one step can be *)

Lemma infer_Some s t n :
  infer s t = Some n ↔
  cells t ⊆ cells s ∧ count s ≠ 0 ∧ count t ≠ 0 ∧ s ≠ t ∧
  n = mkSentence (cells s ∖ cells t) (count s - count t).
Proof.
  unfold infer. repeat case_bool_decide; naive_solver.
Qed.

Lemma infer_cells s t n : infer s t = Some n → cells n ⊆ cells s.
Proof. rewrite infer_Some. intros (_ & _ & _ & _ & ->). simpl. set_solver. Qed.

(** The three ways a step goes on. *)
Variant step_kind (st st' : Loop) : Prop :=
  | step_restart :
      lk st !! li st = None → lflag st = true →
      st' = mkLoop (lk st) 0 0 false → step_kind st st'
  | step_next_row s :
      lk st !! li st = Some s → lk st !! lj st = None →
      st' = mkLoop (lk st) (S (li st)) 0 (lflag st) → step_kind st st'
  | step_skip s t :
      lk st !! li st = Some s → lk st !! lj st = Some t →
      (∀ n, infer s t = Some n → n ∈ lk st) →
      st' = mkLoop (lk st) (li st) (S (lj st)) (lflag st) → step_kind st st'
  | step_append s t n :
      lk st !! li st = Some s → lk st !! lj st = Some t →
      infer s t = Some n → n ∉ lk st →
      st' = mkLoop (lk st ++ [n]) (li st) (S (lj st)) true → step_kind st st'.

Lemma step_inl st st' : step st = inl st' ↔ step_kind st st'.
Proof.
  unfold step. split.
  - destruct (lk st !! li st) as [s|] eqn:Hi.
    + destruct (lk st !! lj st) as [t|] eqn:Hj.
      * destruct (infer s t) as [n|] eqn:Hn.
        -- case_bool_decide as Hin; intros [= <-].
           ++ apply (step_skip _ _ s t); try done. intros n0 Hn0. by simplify_eq.
           ++ by apply (step_append _ _ s t n).
        -- intros [= <-]. apply (step_skip _ _ s t); try done.
           intros n Hn'. by rewrite Hn in Hn'.
      * intros [= <-]. by apply (step_next_row _ _ s).
    + destruct (lflag st) eqn:Hf; [|done].
      intros [= <-]. by apply step_restart.
  - intros [Hi Hf ->|s Hi Hj ->|s t Hi Hj Hn ->|s t n Hi Hj Hn Hnot ->];
      rewrite Hi; try rewrite Hj; try rewrite Hf; try done.
    + destruct (infer s t) as [n|] eqn:E; [|done].
      by rewrite (bool_decide_eq_true_2 _ (Hn n eq_refl)).
    + by rewrite Hn, bool_decide_eq_false_2.
Qed.

Lemma step_inr st k :
  step st = inr k ↔ lk st !! li st = None ∧ lflag st = false ∧ k = lk st.
Proof.
  unfold step. destruct (lk st !! li st) as [s|].
  - destruct (lk st !! lj st) as [t|]; [|naive_solver].
    destruct (infer s t); [case_bool_decide|]; naive_solver.
  - destruct (lflag st); naive_solver.
Qed.

(** ** Running the loop *)

(** A property every step keeps holds where the loop ends. *)
Lemma run_invariant (I : Loop → Prop) :
  (∀ st st', I st → step st = inl st' → I st') →
  ∀ fuel st k, I st → run fuel st = Some k →
    ∃ st', I st' ∧ step st' = inr k.
Proof.
  intros Hstep. induction fuel as [|f IH]; intros st k HI; simpl; [done|].
  destruct (step st) as [st'|k'] eqn:E.
  - intros Hr. eapply IH; [|done]. by eapply Hstep.
  - intros [= ->]. by exists st.
Qed.

Lemma run_more fuel fuel' st k :
  run fuel st = Some k → (fuel ≤ fuel')%nat → run fuel' st = Some k.
Proof.
  revert fuel' st. induction fuel as [|f IH]; intros fuel' st; simpl; [done|].
  intros Hr Hle. destruct fuel' as [|f']; [lia|]. simpl.
  destruct (step st); [|done]. apply IH; [done|lia].
Qed.

(** Steps compose in front of a run. *)
Definition steps : relation Loop := rtc (λ st st', step st = inl st').

Lemma run_after_steps st st' :
  steps st st' → ∀ fuel k, run fuel st' = Some k → ∃ fuel', run fuel' st = Some k.
Proof.
  induction 1 as [st|st st1 st2 H1 _ IH]; intros fuel k Hr; [by exists fuel|].
  destruct (IH _ _ Hr) as [f Hf]. exists (S f). simpl. by rewrite H1.
Qed.

(** The loop only appends. *)
Lemma run_extends_list fuel k k' i j b :
  run fuel (mkLoop k i j b) = Some k' → ∃ ext, k' = k ++ ext.
Proof.
  intros Hr.
  assert (∃ st', (∃ ext, lk st' = k ++ ext) ∧ step st' = inr k')
    as (st' & [ext He] & Hs).
  { eapply (run_invariant (λ st, ∃ ext, lk st = k ++ ext)); [| |done].
    - intros st st' [ext He] [?|?|?|? ? n ? ? ? ? ->]%step_inl; subst; simpl; eauto.
      exists (ext ++ [n]). by rewrite He, app_assoc.
    - exists []. simpl. by rewrite app_nil_r. }
  apply step_inr in Hs as (_ & _ & ->). eauto.
Qed.

(** A property of sentences that inference keeps holds of every sentence the
    loop returns. *)
Lemma run_Forall (P : Sentence → Prop) fuel st k :
  (∀ s t n, P s → P t → infer s t = Some n → P n) →
  Forall P (lk st) → run fuel st = Some k → Forall P k.
Proof.
  intros HP HF Hr.
  assert (∃ st', Forall P (lk st') ∧ step st' = inr k) as (st' & HF' & Hs).
  { eapply (run_invariant (λ st, Forall P (lk st))); [|done|done].
    clear -HP. intros st st' HF [?|?|?|s t n Hi Hj Hn ? ->]%step_inl;
      subst; simpl; try done.
    apply Forall_app; split; [done|]. apply Forall_singleton.
    rewrite Forall_forall in HF.
    eapply HP; [| |done]; apply HF; by eapply list_elem_of_lookup_2. }
  by apply step_inr in Hs as (_ & _ & ->).
Qed.

Lemma subset_loop_Forall (P : Sentence → Prop) fuel k k' :
  (∀ s t n, P s → P t → infer s t = Some n → P n) →
  Forall P k → subset_loop fuel k = Some k' → Forall P k'.
Proof. intros HP HF Hr. by apply (run_Forall P fuel (mkLoop k 0 0 false) k'). Qed.

(** When no inference was appended in the running pass, every pair before
    the current one has its inference in the list. *)
Definition pairs_done (st : Loop) : Prop :=
  lflag st = false →
  ∀ i j s t n, (i < li st ∨ i = li st ∧ j < lj st)%nat →
    lk st !! i = Some s → lk st !! j = Some t → infer s t = Some n → n ∈ lk st.

Lemma pairs_done_step st st' : pairs_done st → step st = inl st' → pairs_done st'.
Proof.
  intros Hd [Hi Hf ->|s Hi Hj ->|s t Hi Hj Hn ->|s t n Hi Hj Hn Hnot ->]%step_inl;
    unfold pairs_done in *; simpl; try done.
  - intros _ i j ??? [?|[??]]; lia.
  - intros Hf i j s0 t0 n Hlt His Hjt Hn.
    apply (Hd Hf i j s0 t0 n); try done.
    destruct (decide (i < li st)%nat); [by left|right].
    apply lookup_lt_Some in Hjt. apply lookup_ge_None in Hj. lia.
  - intros Hf i j s0 t0 n Hlt His Hjt Hn0.
    destruct (decide (i = li st ∧ j = lj st)) as [[-> ->]|].
    + simplify_eq. by apply Hn.
    + apply (Hd Hf i j s0 t0 n); try done. lia.
Qed.

(** The list the loop returns is closed under the subset rule. *)
Lemma run_closed fuel k k' :
  subset_loop fuel k = Some k' →
  ∀ s t n, s ∈ k' → t ∈ k' → infer s t = Some n → n ∈ k'.
Proof.
  intros Hr s t n Hs Ht Hn.
  assert (∃ st', pairs_done st' ∧ step st' = inr k')
    as (st' & Hd & (Hi & Hf & ->)%step_inr).
  { eapply (run_invariant pairs_done pairs_done_step); [|done].
    intros _ ????? [?|[??]]; simpl in *; lia. }
  apply list_elem_of_lookup in Hs as [i Hs], Ht as [j Ht].
  eapply (Hd Hf i j); eauto. left.
  apply lookup_lt_Some in Hs. apply lookup_ge_None in Hi. lia.
Qed.

Lemma subset_loop_extends_list fuel k k' :
  subset_loop fuel k = Some k' → ∃ ext, k' = k ++ ext.
Proof. apply run_extends_list. Qed.

(** ** Termination of the loop over a finite universe of sentences *)

Section Termination.

Variable univ : list Sentence.
Variable P : Sentence → Prop.
Hypothesis P_univ : ∀ s, P s → s ∈ univ.
Hypothesis P_infer : ∀ s t n, P s → P t → infer s t = Some n → P n.

(** The sentences of the universe that are not yet in the list. *)
Definition remaining (l : list Sentence) (k : list Sentence) : nat :=
  length (filter (λ s, s ∉ k) l).

Lemma remaining_app_le l k n : (remaining l (k ++ [n]) ≤ remaining l k)%nat.
Proof.
  unfold remaining. induction l as [|x l IH]; simpl; [done|].
  rewrite !filter_cons. repeat case_decide; simpl; try lia.
  set_solver.
Qed.

Lemma remaining_app_lt l k n :
  n ∈ l → n ∉ k → (remaining l (k ++ [n]) < remaining l k)%nat.
Proof.
  unfold remaining. induction l as [|x l IH]; [by intros ?%elem_of_nil|].
  intros [Heq|Hin]%elem_of_cons Hk; rewrite !filter_cons.
  - subst x. rewrite decide_False by set_solver. rewrite decide_True by done. simpl.
    pose proof (remaining_app_le l k n). unfold remaining in *. lia.
  - specialize (IH Hin Hk). repeat case_decide; simpl; try lia. set_solver.
Qed.

(** From any position of a pass the loop reaches the end of the pass with
    the list as it was, or appends a sentence. *)
Lemma pass_progress k b :
  Forall P k →
  ∀ a i j, (length k - i ≤ a)%nat →
    ∃ st', steps (mkLoop k i j b) st' ∧
      ((lk st' = k ∧ lflag st' = b ∧ k !! li st' = None) ∨
       (∃ n, lk st' = k ++ [n] ∧ n ∉ k ∧ P n)).
Proof.
  intros HF. induction a as [|a IHa]; intros i j Hi.
  - exists (mkLoop k i j b). split; [apply rtc_refl|left]. simpl.
    split_and!; try done. apply lookup_ge_None. lia.
  - remember (length k - j)%nat as m eqn:Hm. revert j Hm.
    induction m as [m IHm] using lt_wf_ind. intros j Hm.
    destruct (k !! i) as [s|] eqn:Hs; last first.
    { exists (mkLoop k i j b). split; [apply rtc_refl|by left]. }
    destruct (k !! j) as [t|] eqn:Ht; last first.
    { destruct (IHa (S i) 0%nat) as (st' & Hst & Hres).
      { apply lookup_lt_Some in Hs. lia. }
      exists st'. split; [|done]. eapply rtc_l; [|done].
      apply step_inl. by eapply step_next_row. }
    destruct (infer s t) as [n|] eqn:Hn.
    + destruct (decide (n ∈ k)) as [Hin|Hin].
      * destruct (IHm (length k - S j)%nat) with (j := S j) as (st' & Hst & Hres);
          [apply lookup_lt_Some in Ht; lia | done |].
        exists st'. split; [|done]. eapply rtc_l; [|done].
        apply step_inl. eapply step_skip; eauto. intros ? ?. by simplify_eq.
      * exists (mkLoop (k ++ [n]) i (S j) true). split.
        -- apply rtc_once, step_inl. by eapply step_append.
        -- right. exists n. split_and!; try done.
           rewrite Forall_forall in HF.
           eapply P_infer; [| |done]; apply HF; by eapply list_elem_of_lookup_2.
    + destruct (IHm (length k - S j)%nat) with (j := S j) as (st' & Hst & Hres);
        [apply lookup_lt_Some in Ht; lia | done |].
      exists st'. split; [|done]. eapply rtc_l; [|done].
      apply step_inl. eapply step_skip; eauto. intros ? ?. by simplify_eq.
Qed.

Lemma run_terminates_from k :
  Forall P k → ∀ i j b, ∃ fuel k', run fuel (mkLoop k i j b) = Some k'.
Proof.
  remember (remaining univ k) as d eqn:Hd. revert k Hd.
  induction d as [d IH] using lt_wf_ind. intros k -> HF i j b.
  (* after an append fewer sentences remain *)
  assert (∀ st', (∃ n, lk st' = k ++ [n] ∧ n ∉ k ∧ P n) →
            ∃ fuel k', run fuel st' = Some k') as Happ.
  { intros [k1 i1 j1 b1] (n & Hk & Hn & HPn). simpl in Hk. subst k1.
    eapply IH; [|done|].
    - apply remaining_app_lt; [by apply P_univ|done].
    - apply Forall_app; split; [done|by apply Forall_singleton]. }
  (* a pass that ends with the flag down ends the loop *)
  assert (∀ st', lk st' = k ∧ lflag st' = false ∧ k !! li st' = None →
            ∃ fuel k', run fuel st' = Some k') as Hend.
  { intros st' (Hk & Hb & Hi). exists 1%nat, k. simpl.
    assert (step st' = inr k) as ->; [|done]. apply step_inr. by rewrite Hk. }
  destruct (pass_progress k b HF (length k) i j) as (st1 & Hst1 & Hres1); [lia|].
  cut (∃ fuel k', run fuel st1 = Some k').
  { intros (f & k' & Hr). destruct (run_after_steps _ _ Hst1 _ _ Hr) as [f' ?]; eauto. }
  destruct Hres1 as [(Hk & Hb & Hi)|Hn]; [|by apply Happ].
  destruct b; [|by apply Hend].
  (* the flag is up: one more pass, from the start *)
  destruct (pass_progress k false HF (length k) 0%nat 0%nat)
    as (st2 & Hst2 & Hres2); [lia|].
  cut (∃ fuel k', run fuel st2 = Some k').
  { intros (f & k' & Hr).
    assert (steps st1 st2) as Hst12.
    { eapply rtc_l; [|done]. apply step_inl, step_restart; by rewrite ?Hk. }
    destruct (run_after_steps _ _ Hst12 _ _ Hr) as [f' ?]; eauto. }
  destruct Hres2 as [(Hk2 & Hb2 & Hi2)|Hn]; [by apply Hend|by apply Happ].
Qed.

Lemma subset_loop_terminates k :
  Forall P k → ∃ fuel k', subset_loop fuel k = Some k'.
Proof. intros HF. by apply run_terminates_from. Qed.

End Termination.

(** ** A loop that never ends: empty sentences with different counts *)

(** Sentences without cells are subsets of each other, and the difference of
    two counts is a new count again and again. *)
Definition empty_cells (k : list Sentence) : Prop :=
  Forall (λ s, cells s = ∅) k.

Definition two_counts (k : list Sentence) : Prop :=
  ∃ s t, s ∈ k ∧ t ∈ k ∧ count s ≠ 0 ∧ count t ≠ 0 ∧ count s ≠ count t.

(** A pair at or after the current one whose inference is new. *)
Definition pending (st : Loop) : Prop :=
  ∃ i j s t n, (li st < i ∨ i = li st ∧ lj st ≤ j)%nat ∧
    lk st !! i = Some s ∧ lk st !! j = Some t ∧
    infer s t = Some n ∧ n ∉ lk st.

Definition diverging (st : Loop) : Prop :=
  empty_cells (lk st) ∧ two_counts (lk st) ∧ (lflag st = false → pending st).

Lemma max_count_exists (k : list Sentence) s0 :
  s0 ∈ k → count s0 ≠ 0 →
  ∃ m, m ∈ k ∧ count m ≠ 0 ∧ ∀ s, s ∈ k → count s ≠ 0 → count s ≤ count m.
Proof.
  revert s0. induction k as [|x k IH]; intros s0; [by intros ?%elem_of_nil|].
  intros Hin Hs0.
  destruct (decide (Exists (λ s1, count s1 ≠ 0) k)) as [Hex|Hno].
  - apply Exists_exists in Hex as (s1 & Hs1 & Hc1).
    destruct (IH s1 Hs1 Hc1) as (m & Hm & Hcm & Hmax).
    destruct (decide (count x = 0 ∨ count x ≤ count m)).
    + exists m. split_and!; [set_solver|done|].
      intros s [->|?]%elem_of_cons ?; [lia|by apply Hmax].
    + exists x. split_and!; [set_solver|lia|].
      intros s [->|Hk]%elem_of_cons Hc; [done|]. specialize (Hmax s Hk Hc). lia.
  - apply not_Exists_Forall in Hno; [|apply _]. rewrite Forall_forall in Hno.
    assert (s0 = x) as ->.
    { apply elem_of_cons in Hin as [?|Hk]; [done|]. by destruct (Hno s0 Hk). }
    exists x. split_and!; [set_solver|done|].
    intros s [->|Hk]%elem_of_cons ?; [done|]. by destruct (Hno s Hk).
Qed.

Lemma min_count_exists (k : list Sentence) s0 :
  s0 ∈ k → count s0 ≠ 0 →
  ∃ m, m ∈ k ∧ count m ≠ 0 ∧ ∀ s, s ∈ k → count s ≠ 0 → count m ≤ count s.
Proof.
  revert s0. induction k as [|x k IH]; intros s0; [by intros ?%elem_of_nil|].
  intros Hin Hs0.
  destruct (decide (Exists (λ s1, count s1 ≠ 0) k)) as [Hex|Hno].
  - apply Exists_exists in Hex as (s1 & Hs1 & Hc1).
    destruct (IH s1 Hs1 Hc1) as (m & Hm & Hcm & Hmin).
    destruct (decide (count x = 0 ∨ count m ≤ count x)).
    + exists m. split_and!; [set_solver|done|].
      intros s [->|?]%elem_of_cons ?; [lia|by apply Hmin].
    + exists x. split_and!; [set_solver|lia|].
      intros s [->|Hk]%elem_of_cons Hc; [done|]. specialize (Hmin s Hk Hc). lia.
  - apply not_Exists_Forall in Hno; [|apply _]. rewrite Forall_forall in Hno.
    assert (s0 = x) as ->.
    { apply elem_of_cons in Hin as [?|Hk]; [done|]. by destruct (Hno s0 Hk). }
    exists x. split_and!; [set_solver|done|].
    intros s [->|Hk]%elem_of_cons ?; [done|]. by destruct (Hno s Hk).
Qed.

(** Such a list is never closed: the largest count minus the smallest, or
    the smallest minus the largest, is missing. *)
Lemma new_pair_exists k :
  empty_cells k → two_counts k →
  ∃ i j s t n, k !! i = Some s ∧ k !! j = Some t ∧ infer s t = Some n ∧ n ∉ k.
Proof.
  intros He (s0 & t0 & Hs0 & Ht0 & Hcs & Hct & Hne).
  destruct (max_count_exists k s0 Hs0 Hcs) as (M & HM & HcM & Hmax).
  destruct (min_count_exists k s0 Hs0 Hcs) as (m & Hm & Hcm & Hmin).
  assert (count m < count M) as Hlt.
  { pose proof (Hmax s0 Hs0 Hcs). pose proof (Hmax t0 Ht0 Hct).
    pose proof (Hmin s0 Hs0 Hcs). pose proof (Hmin t0 Ht0 Hct). lia. }
  unfold empty_cells in He. rewrite Forall_forall in He.
  pose proof (He M HM) as HeM. pose proof (He m Hm) as Hem.
  apply list_elem_of_lookup in HM as [iM HiM], Hm as [im Him].
  destruct (decide (count m < 0)).
  - exists iM, im, M, m, (mkSentence (cells M ∖ cells m) (count M - count m)).
    split_and!; try done.
    + apply infer_Some. split_and!; try done; [set_solver|].
      intros Heq. rewrite Heq in Hlt. lia.
    + intros Hin. specialize (Hmax _ Hin). simpl in Hmax. lia.
  - exists im, iM, m, M, (mkSentence (cells m ∖ cells M) (count m - count M)).
    split_and!; try done.
    + apply infer_Some. split_and!; try done; [set_solver|].
      intros Heq. rewrite Heq in Hlt. lia.
    + intros Hin. specialize (Hmin _ Hin). simpl in Hmin. lia.
Qed.

Lemma diverging_skip st s t :
  diverging st → lk st !! li st = Some s → lk st !! lj st = Some t →
  (∀ n, infer s t = Some n → n ∈ lk st) →
  diverging (mkLoop (lk st) (li st) (S (lj st)) (lflag st)).
Proof.
  intros (He & Ht & Hp) Hi Hj Hn. split_and!; simpl; [done|done|].
  intros Hf. destruct (Hp Hf) as (i & j & s1 & t1 & n1 & Hpos & H1 & H2 & H3 & H4).
  exists i, j, s1, t1, n1. split_and!; simpl; try done.
  destruct (decide (i = li st ∧ j = lj st)) as [[-> ->]|]; [|lia].
  simplify_eq. by destruct H4; apply Hn.
Qed.

Lemma diverging_step st : diverging st → ∃ st', step st = inl st' ∧ diverging st'.
Proof.
  intros Hd. pose proof Hd as (He & Ht & Hp).
  destruct (lk st !! li st) as [s|] eqn:Hi.
  - destruct (lk st !! lj st) as [t|] eqn:Hj.
    + assert ((∀ n, infer s t = Some n → n ∈ lk st) ∨
              (∃ n, infer s t = Some n ∧ n ∉ lk st)) as [Hn|(n & Hst & Hin)].
      { destruct (infer s t) as [n|]; [|by left].
        destruct (decide (n ∈ lk st)); [left|right; eauto].
        by intros ? [= <-]. }
      * exists (mkLoop (lk st) (li st) (S (lj st)) (lflag st)). split.
        -- apply step_inl. by eapply step_skip.
        -- by eapply diverging_skip.
      * exists (mkLoop (lk st ++ [n]) (li st) (S (lj st)) true). split.
        { apply step_inl. by eapply step_append. }
        split_and!; simpl; [| |done].
        -- apply Forall_app. split; [done|]. apply Forall_singleton.
           apply infer_Some in Hst as (_ & _ & _ & _ & ->). simpl.
           unfold empty_cells in He. rewrite Forall_forall in He.
           rewrite (He s); [set_solver|by eapply list_elem_of_lookup_2].
        -- destruct Ht as (s1 & t1 & ? & ? & ?).
           exists s1, t1. split_and!; set_solver.
    + exists (mkLoop (lk st) (S (li st)) 0 (lflag st)). split.
      { apply step_inl. by eapply step_next_row. }
      split_and!; simpl; [done|done|].
      intros Hf. destruct (Hp Hf) as (i & j & s1 & t1 & n1 & Hpos & H1 & H2 & H3 & H4).
      exists i, j, s1, t1, n1. split_and!; simpl; try done.
      apply lookup_lt_Some in H2. apply lookup_ge_None in Hj. lia.
  - destruct (lflag st) eqn:Hf.
    + exists (mkLoop (lk st) 0 0 false). split.
      { apply step_inl. by apply step_restart. }
      split_and!; simpl; [done|done|]. intros _.
      destruct (new_pair_exists _ He Ht) as (i & j & s & t & n & ?).
      exists i, j, s, t, n. simpl. split; [lia|done].
    + destruct (Hp eq_refl) as (i & j & s1 & t1 & n1 & Hpos & H1 & H2 & H3 & H4).
      apply lookup_lt_Some in H1. apply lookup_ge_None in Hi. lia.
Qed.

Lemma diverging_run fuel st : diverging st → run fuel st = None.
Proof.
  revert st. induction fuel as [|f IH]; intros st Hd; simpl; [done|].
  destruct (diverging_step st Hd) as (st' & -> & Hd'). by apply IH.
Qed.

Lemma diverging_subset_loop fuel k :
  empty_cells k → two_counts k → subset_loop fuel k = None.
Proof.
  intros He Ht. apply diverging_run. split_and!; simpl; [done|done|].
  intros _. destruct (new_pair_exists _ He Ht) as (i & j & s & t & n & ?).
  exists i, j, s, t, n. simpl. split; [lia|done].
Qed.

(** ** Sentences that hold on the board *)

Lemma size_inter_difference (X Y M : gset Cell) :
  Y ⊆ X → size ((X ∖ Y) ∩ M) = (size (X ∩ M) - size (Y ∩ M))%nat.
Proof.
  intros HYX. replace ((X ∖ Y) ∩ M) with ((X ∩ M) ∖ (Y ∩ M)) by set_solver.
  apply size_difference. set_solver.
Qed.

Lemma size_inter_le (X Y M : gset Cell) :
  Y ⊆ X → (size (Y ∩ M) ≤ size (X ∩ M))%nat.
Proof. intros. apply subseteq_size. set_solver. Qed.

Lemma holds_mark_safe g c s :
  c ∉ Game.mines g → holds g s → holds g (Sent.mark_safe c s).
Proof.
  unfold holds. intros Hc Hs.
  rewrite Sent_mark_safe_cells, Sent_mark_safe_count, Hs.
  f_equal. f_equal. set_solver.
Qed.

Lemma holds_mark_mine g c s :
  c ∈ Game.mines g → holds g s → holds g (Sent.mark_mine c s).
Proof.
  unfold holds. intros Hc Hs.
  rewrite Sent_mark_mine_cells, Sent_mark_mine_count, Hs.
  case_bool_decide as Hin.
  - rewrite (size_inter_difference (cells s) {[c]}) by set_solver.
    replace ({[c]} ∩ Game.mines g) with ({[c]} : gset Cell) by set_solver.
    rewrite size_singleton.
    assert (size ({[c]} : gset Cell) ≤ size (cells s ∩ Game.mines g))%nat as Hle
      by (apply subseteq_size; set_solver).
    rewrite size_singleton in Hle. lia.
  - replace (Z.of_nat (size (cells s ∩ Game.mines g)) - 0)
      with (Z.of_nat (size (cells s ∩ Game.mines g))) by lia.
    f_equal. f_equal. set_solver.
Qed.

Lemma holds_infer g s t n :
  holds g s → holds g t → infer s t = Some n → holds g n.
Proof.
  unfold holds. intros Hs Ht (Hsub & _ & _ & _ & ->)%infer_Some. simpl.
  rewrite size_inter_difference by done.
  pose proof (size_inter_le _ _ (Game.mines g) Hsub). lia.
Qed.

(** A sentence that holds and counts no mine has none. *)
Lemma holds_zero g s : holds g s → count s = 0 → cells s ## Game.mines g.
Proof.
  unfold holds. intros Hs Hz. rewrite Hz in Hs.
  assert (size (cells s ∩ Game.mines g) = 0%nat) as H0 by lia.
  apply size_empty_inv in H0. set_solver.
Qed.

(** A sentence that holds and counts as many mines as cells has only mines. *)
Lemma holds_full g s :
  holds g s → Z.of_nat (size (cells s)) = count s → cells s ⊆ Game.mines g.
Proof.
  unfold holds. intros Hs Hf. rewrite Hs in Hf.
  assert (cells s ∩ Game.mines g ≡ cells s) as Heq; [|set_solver].
  apply set_subseteq_size_equiv; [set_solver|lia].
Qed.

(** ** Marking keeps the solver consistent with the board *)

Lemma consistent_mark_safe g c a :
  c ∉ Game.mines g → consistent g a → consistent g (mark_safe c a).
Proof.
  intros Hc []. split; simpl; try done; try set_solver.
  rewrite Forall_fmap. eapply Forall_impl; [done|].
  intros s ?. by apply holds_mark_safe.
Qed.

Lemma consistent_mark_mine g c a :
  c ∈ Game.mines g → consistent g a → consistent g (mark_mine c a).
Proof.
  intros Hc []. split; simpl; try done; try set_solver.
  rewrite Forall_fmap. eapply Forall_impl; [done|].
  intros s ?. by apply holds_mark_mine.
Qed.

Lemma consistent_mark_safes g l a :
  Forall (λ c, c ∉ Game.mines g) l → consistent g a →
  consistent g (foldl (λ x c, mark_safe c x) a l).
Proof.
  intros Hl. revert a. induction Hl as [|c l Hc _ IH]; intros a Ha; simpl; [done|].
  by apply IH, consistent_mark_safe.
Qed.

Lemma consistent_mark_mines g l a :
  Forall (λ c, c ∈ Game.mines g) l → consistent g a →
  consistent g (foldl (λ x c, mark_mine c x) a l).
Proof.
  intros Hl. revert a. induction Hl as [|c l Hc _ IH]; intros a Ha; simpl; [done|].
  by apply IH, consistent_mark_mine.
Qed.

Lemma consistent_lookup g a k s :
  consistent g a → knowledge a !! k = Some s → holds g s.
Proof.
  intros [] Hk. rewrite Forall_forall in cons_knowledge0.
  apply cons_knowledge0. by eapply list_elem_of_lookup_2.
Qed.

Lemma known_safes_no_mine g s :
  holds g s → Forall (λ c, c ∉ Game.mines g) (elements (Sent.known_safes s)).
Proof.
  intros Hs. apply Forall_forall. intros c Hc%elem_of_elements.
  unfold Sent.known_safes in Hc. case_bool_decide as Hz; [|set_solver].
  pose proof (holds_zero g s Hs Hz). set_solver.
Qed.

Lemma known_mines_all_mines g s :
  holds g s → Forall (λ c, c ∈ Game.mines g) (elements (Sent.known_mines s)).
Proof.
  intros Hs. apply Forall_forall. intros c Hc%elem_of_elements.
  unfold Sent.known_mines in Hc. case_bool_decide as Hz; [|set_solver].
  destruct Hz as [Hf _]. pose proof (holds_full g s Hs Hf). set_solver.
Qed.

Lemma consistent_extract_at g a k :
  consistent g a → consistent g (extract_at a k).
Proof.
  intros Ha. unfold extract_at.
  destruct (knowledge a !! k) as [s|] eqn:Hs; [|done].
  set (a1 := if bool_decide _ then _ else a).
  assert (consistent g a1) as Ha1.
  { subst a1. case_bool_decide; [|done].
    apply consistent_mark_safes; [|done].
    eapply known_safes_no_mine, consistent_lookup; eauto. }
  destruct (knowledge a1 !! k) as [s'|] eqn:Hs'; [|done].
  case_bool_decide; [|done].
  apply consistent_mark_mines; [|done].
  eapply known_mines_all_mines, consistent_lookup; eauto.
Qed.

Lemma consistent_extraction_upto g k a :
  consistent g a → consistent g (extraction_upto k a).
Proof.
  unfold extraction_upto. generalize (seq 0 k). intros l. revert a.
  induction l as [|i l IH]; intros a Ha; simpl; [done|].
  by apply IH, consistent_extract_at.
Qed.

Lemma consistent_extraction g a : consistent g a → consistent g (extraction a).
Proof. apply consistent_extraction_upto. Qed.

(** ** The window of the two [for] loops *)

Lemma window_eq c :
  window c =
  [(c.1 - 1, c.2 - 1); (c.1 - 1, c.2); (c.1 - 1, c.2 + 1);
   (c.1, c.2 - 1); (c.1, c.2); (c.1, c.2 + 1);
   (c.1 + 1, c.2 - 1); (c.1 + 1, c.2); (c.1 + 1, c.2 + 1)].
Proof. reflexivity. Qed.

Lemma window_NoDup c : NoDup (window c).
Proof.
  rewrite window_eq.
  repeat (apply NoDup_cons; split;
    [rewrite ?elem_of_cons, elem_of_nil;
     intros H; repeat destruct H as [H|H]; try done; injection H; lia|]).
  apply NoDup_nil_2.
Qed.

(** The window without its centre is the neighbourhood. *)
Lemma elem_of_neighbours c p : p ∈ neighbours c ↔ p ∈ window c ∧ p ≠ c.
Proof.
  unfold neighbours. rewrite elem_of_list_to_set, window_eq.
  rewrite !elem_of_cons, !elem_of_nil. destruct c as [r k], p as [i j]. simpl.
  split.
  - intros H. repeat destruct H as [H|H]; try done; injection H as Hi Hj;
      (split; [|intros [= ? ?]; lia]); subst i j; tauto.
  - intros [H Hne]. repeat destruct H as [H|H]; try done; tauto.
Qed.

Lemma neighbours_inter (S : gset Cell) c :
  neighbours c ∩ S = list_to_set (filter (λ p, p ≠ c ∧ p ∈ S) (window c)).
Proof.
  apply set_eq. intros p.
  rewrite elem_of_intersection, elem_of_neighbours, elem_of_list_to_set,
    list_elem_of_filter. tauto.
Qed.

Lemma size_neighbours_inter (S : gset Cell) c :
  size (neighbours c ∩ S) = length (filter (λ p, p ≠ c ∧ p ∈ S) (window c)).
Proof.
  rewrite neighbours_inter. apply size_list_to_set.
  apply NoDup_filter, window_NoDup.
Qed.

(** ** The scan of the neighbours *)

Lemma scan_foldl a c l n u :
  foldl (scan_step a c) (n, u) l =
  (n - Z.of_nat (length (filter (λ p, p ≠ c ∧ p ∈ mines a) l)),
   u ++ filter (λ p, p ≠ c ∧ p ∉ mines a ∧
                     in_bounds (height a) (width a) p ∧
                     p ∉ safes a ∧ p ∉ moves_made a) l).
Proof.
  revert n u. induction l as [|p l IH]; intros n u; simpl.
  - rewrite app_nil_r. f_equal. lia.
  - destruct (scan_step a c (n, u) p) as [n' u'] eqn:E. rewrite IH.
    rewrite !filter_cons. unfold scan_step in E. simpl in E.
    repeat case_bool_decide; simplify_eq; repeat case_decide;
      try (exfalso; tauto); simpl; rewrite <- ?app_assoc; simpl;
      f_equal; lia.
Qed.

Lemma scan_count a c n :
  (scan a c n).1 = n - Z.of_nat (size (neighbours c ∩ mines a)).
Proof. unfold scan. by rewrite scan_foldl, size_neighbours_inter. Qed.

Lemma scan_cells a c n :
  list_to_set (scan a c n).2 =@{gset Cell}
  filter (λ p, in_bounds (height a) (width a) p)
         (neighbours c ∖ mines a ∖ safes a ∖ moves_made a).
Proof.
  unfold scan. rewrite scan_foldl. simpl. apply set_eq. intros p.
  rewrite elem_of_list_to_set, list_elem_of_filter, elem_of_filter,
    !elem_of_difference, elem_of_neighbours. tauto.
Qed.

(** Lines 197-201 change the sets only at the observed cell, which is no
    neighbour of itself. *)
Lemma undetermined_marked a c :
  let a2 := mark_safe c
    {| height := height a; width := width a;
       moves_made := {[c]} ∪ moves_made a; mines := mines a;
       safes := safes a; knowledge := knowledge a |} in
  undetermined a2 c = undetermined a c ∧
  ∀ n, adjusted_count a2 c n = adjusted_count a c n.
Proof.
  simpl. split; [|done]. unfold undetermined. simpl.
  apply set_eq. intros p. rewrite !elem_of_filter, !elem_of_difference,
    !elem_of_union, elem_of_singleton, elem_of_neighbours. tauto.
Qed.

Lemma observe_knowledge a c n :
  knowledge (observe a c n) =
  (Sent.mark_safe c <$> knowledge a) ++
  [mkSentence (undetermined a c) (adjusted_count a c n)].
Proof.
  unfold observe. cbv zeta. simpl. f_equal. f_equal.
  destruct (undetermined_marked a c) as [Hu Hc]. cbv zeta in Hu, Hc.
  rewrite <- Hu, <- (Hc n). f_equal.
  - apply scan_cells.
  - apply scan_count.
Qed.

(** ** The board's count *)

Lemma nearby_foldl g c l z :
  foldl (Game.nearby_step g c) z l =
  z + Z.of_nat (length (filter
        (λ p, p ≠ c ∧ in_bounds (Game.height g) (Game.width g) p ∧
              p ∈ Game.mines g) l)).
Proof.
  revert z. induction l as [|p l IH]; intros z; simpl; [lia|].
  rewrite IH, filter_cons. unfold Game.nearby_step.
  repeat (case_bool_decide || case_decide); simpl in *;
    try (exfalso; tauto); lia.
Qed.

Lemma filter_length_ext {A} (P Q : A → Prop)
    `{!∀ x, Decision (P x)} `{!∀ x, Decision (Q x)} (l : list A) :
  (∀ x, x ∈ l → P x ↔ Q x) → length (filter P l) = length (filter Q l).
Proof.
  induction l as [|x l IH]; intros Hl; [done|].
  rewrite !filter_cons.
  assert (P x ↔ Q x) as Hx by (apply Hl; apply elem_of_cons; by left).
  assert (length (filter P l) = length (filter Q l)) as Hlen.
  { apply IH. intros y Hy. apply Hl. apply elem_of_cons. by right. }
  repeat case_decide; simpl; try tauto; lia.
Qed.

(** On a well-formed board the count is the number of mines around. *)
Lemma nearby_mines_size g c :
  Game.well_formed g →
  Game.nearby_mines g c = Z.of_nat (size (neighbours c ∩ Game.mines g)).
Proof.
  intros Hwf. unfold Game.nearby_mines.
  rewrite nearby_foldl, size_neighbours_inter. rewrite Z.add_0_l. f_equal.
  apply filter_length_ext. intros p _. split; [tauto|].
  intros [? Hm]. split_and!; try done. by apply Hwf.
Qed.

(** ** Observing keeps the solver consistent with the board *)

Lemma holds_observation g a c :
  Game.well_formed g → consistent g a →
  holds g (mkSentence (undetermined a c)
                      (adjusted_count a c (Game.nearby_mines g c))).
Proof.
  intros Hwf []. unfold holds, adjusted_count. simpl.
  rewrite nearby_mines_size by done.
  assert (undetermined a c ∩ Game.mines g =
          (neighbours c ∩ Game.mines g) ∖ (neighbours c ∩ mines a)) as ->.
  { unfold undetermined. apply set_eq. intros p.
    rewrite elem_of_intersection, elem_of_filter, !elem_of_difference,
      !elem_of_intersection.
    split; [tauto|]. intros [[Hn Hm] Hnot].
    assert (in_bounds (height a) (width a) p)
      by (rewrite cons_height0, cons_width0; by apply Hwf).
    split_and!; try done; set_solver. }
  rewrite (size_difference (neighbours c ∩ Game.mines g) (neighbours c ∩ mines a))
    by set_solver.
  assert (size (neighbours c ∩ mines a) ≤ size (neighbours c ∩ Game.mines g))%nat
    by (apply subseteq_size; set_solver).
  lia.
Qed.

Lemma consistent_observe g a c :
  Game.well_formed g → consistent g a → Game.is_mine g c = false →
  consistent g (observe a c (Game.nearby_mines g c)).
Proof.
  intros Hwf Ha Hc. apply bool_decide_eq_false in Hc.
  pose proof (holds_observation g a c Hwf Ha) as Hnew.
  destruct Ha. split.
  - done.
  - done.
  - done.
  - simpl. set_solver.
  - simpl. set_solver.
  - rewrite observe_knowledge. apply Forall_app. split.
    + rewrite Forall_fmap. eapply Forall_impl; [done|].
      intros s ?. by apply holds_mark_safe.
    + by apply Forall_singleton.
Qed.

Lemma consistent_add_knowledge g a c fuel a' :
  Game.well_formed g → consistent g a → Game.is_mine g c = false →
  add_knowledge fuel a c (Game.nearby_mines g c) = Some a' →
  consistent g a'.
Proof.
  intros Hwf Ha Hc. unfold add_knowledge. cbv zeta.
  pose proof (consistent_extraction g _ (consistent_observe g a c Hwf Ha Hc)) as H1.
  destruct (subset_loop _ _) as [k|] eqn:Hk; [|done]. intros [= <-].
  destruct H1. split; simpl; try done.
  apply (subset_loop_Forall (holds g) _ _ _ (holds_infer g) cons_knowledge0 Hk).
Qed.

Lemma consistent_init g : consistent g (init (Game.height g) (Game.width g)).
Proof. split; simpl; try done; set_solver. Qed.

(** Soundness: what a played solver knows is true of the board. *)
Lemma played_consistent g a :
  Game.well_formed g → played g a → consistent g a.
Proof.
  intros Hwf. induction 1 as [|a c fuel a' _ IH Hc Hadd|a _ IH|a r _ IH].
  - apply consistent_init.
  - by eapply consistent_add_knowledge.
  - exact IH.
  - exact IH.
Qed.

(** ** Every set of cells of a finite set is among [subsets] *)

Lemma elem_of_subsets (l : list Cell) (X : gset Cell) :
  X ⊆ list_to_set l → X ∈ subsets l.
Proof.
  revert X. induction l as [|x l IH]; intros X HX; simpl.
  - assert (X = ∅) as -> by set_solver. set_solver.
  - apply elem_of_app. destruct (decide (x ∈ X)) as [Hx|Hx].
    + right. apply list_elem_of_fmap. exists (X ∖ {[x]}). split.
      * apply set_eq. intros p. destruct (decide (p = x)); set_solver.
      * apply IH. set_solver.
    + left. apply IH. set_solver.
Qed.

(** The sentences over the cells of [U] that hold on the board. *)
Definition universe (g : Game.t) (U : gset Cell) : list Sentence :=
  (λ X, mkSentence X (Z.of_nat (size (X ∩ Game.mines g)))) <$> subsets (elements U).

Lemma elem_of_universe g U s :
  cells s ⊆ U → holds g s → s ∈ universe g U.
Proof.
  intros HU Hs. apply list_elem_of_fmap. exists (cells s). split.
  - apply sentence_eq; [done|]. by simpl.
  - apply elem_of_subsets. rewrite list_to_set_elements_L. done.
Qed.

(** The loop ends on every list of sentences that hold on one board. *)
Lemma subset_loop_terminates_holds g k :
  Forall (holds g) k → ∃ fuel k', subset_loop fuel k = Some k'.
Proof.
  intros Hk.
  set (U := ⋃ (cells <$> k) : gset Cell).
  apply (subset_loop_terminates (universe g U)
           (λ s, cells s ⊆ U ∧ holds g s)).
  - intros s [? ?]. by apply elem_of_universe.
  - intros s t n [HsU Hs] [HtU Ht] Hn. split.
    + apply infer_cells in Hn. set_solver.
    + exact (holds_infer g s t n Hs Ht Hn).
  - rewrite Forall_forall in Hk. apply Forall_forall. intros s Hs.
    split; [|by apply Hk]. subst U. intros p Hp.
    apply elem_of_union_list. exists (cells s). split; [|done].
    apply list_elem_of_fmap. eauto.
Qed.

(** ** What the extraction pass marks *)

Lemma mark_safes_safes l a :
  list_to_set l ⊆ safes (foldl (λ x c, mark_safe c x) a l).
Proof.
  revert a. induction l as [|c l IH]; intros a; simpl; [set_solver|].
  pose proof (IH (mark_safe c a)).
  pose proof (ext_safes _ _ (mark_safes_extends l (mark_safe c a))) as Hs.
  simpl in Hs. set_solver.
Qed.

Lemma mark_mines_mines l a :
  list_to_set l ⊆ mines (foldl (λ x c, mark_mine c x) a l).
Proof.
  revert a. induction l as [|c l IH]; intros a; simpl; [set_solver|].
  pose proof (IH (mark_mine c a)).
  pose proof (ext_mines _ _ (mark_mines_extends l (mark_mine c a))) as Hs.
  simpl in Hs. set_solver.
Qed.

(** A sentence with count 0 when the loop reads it has all its cells marked
    safe at that index. *)
Lemma extract_at_safes a k s :
  knowledge a !! k = Some s → count s = 0 → cells s ⊆ safes (extract_at a k).
Proof.
  intros Hs Hz. unfold extract_at. rewrite Hs.
  set (a1 := if bool_decide _ then _ else a).
  assert (cells s ⊆ safes a1) as H1.
  { subst a1. unfold Sent.known_safes. rewrite (bool_decide_eq_true_2 _ Hz).
    case_bool_decide as He.
    - pose proof (mark_safes_safes (elements (cells s)) a) as H.
      by rewrite list_to_set_elements_L in H.
    - rewrite He. set_solver. }
  destruct (knowledge a1 !! k) as [s'|]; [|done].
  case_bool_decide; [|done].
  pose proof (ext_safes _ _ (mark_mines_extends (elements (Sent.known_mines s')) a1)).
  set_solver.
Qed.

(** A sentence with as many mines as cells when the loop reads it has all
    its cells marked as mines at that index. *)
Lemma extract_at_mines a k s :
  knowledge a !! k = Some s →
  Z.of_nat (size (cells s)) = count s → count s > 0 →
  cells s ⊆ mines (extract_at a k).
Proof.
  intros Hs Hf Hpos. unfold extract_at. rewrite Hs.
  assert (Sent.known_safes s = ∅) as ->.
  { unfold Sent.known_safes. rewrite bool_decide_eq_false_2; [done|lia]. }
  rewrite bool_decide_eq_false_2 by (intros H; by apply H).
  rewrite Hs.
  assert (Sent.known_mines s = cells s) as ->.
  { unfold Sent.known_mines. by rewrite bool_decide_eq_true_2. }
  case_bool_decide as He.
  - pose proof (mark_mines_mines (elements (cells s)) a) as H.
    by rewrite list_to_set_elements_L in H.
  - rewrite He. set_solver.
Qed.

Lemma extraction_after k a :
  (k < length (knowledge a))%nat →
  extends (extract_at (extraction_upto k a) k) (extraction a).
Proof.
  intros Hk. rewrite (extraction_from_upto (S k)) by lia.
  rewrite extraction_upto_S. apply foldl_extract_extends.
Qed.

Lemma extraction_upto_lookup_lt k a s :
  knowledge (extraction_upto k a) !! k = Some s → (k < length (knowledge a))%nat.
Proof.
  intros Hs%lookup_lt_Some.
  by rewrite (ext_length _ _ (extraction_upto_extends k a)) in Hs.
Qed.

(** On a consistent solver the same holds for the sentences as they are
    when the pass starts. *)
Lemma extraction_consistent_safes g a k s :
  consistent g a → knowledge a !! k = Some s → count s = 0 →
  cells s ⊆ safes (extraction a).
Proof.
  intros Ha Hs Hz.
  pose proof (lookup_lt_Some _ _ _ Hs) as Hk.
  pose proof (extraction_upto_extends k a) as Hext.
  pose proof (consistent_extraction_upto g k a Ha) as Hb.
  destruct (ext_knowledge _ _ Hext k s Hs) as (s' & Hs' & Hsub & Hle).
  pose proof (ext_removed _ _ Hext k s s' Hs Hs') as Hrem.
  pose proof (consistent_lookup g _ _ _ Hb Hs') as Hh'.
  assert (count s' = 0) as Hz' by (unfold holds in Hh'; lia).
  pose proof (extract_at_safes _ _ _ Hs' Hz') as H1.
  pose proof (extract_at_extends (extraction_upto k a) k) as H2.
  pose proof (extraction_after k a Hk) as H3.
  pose proof (holds_zero g s (consistent_lookup g _ _ _ Ha Hs) Hz) as Hno.
  pose proof (cons_mines _ _ Hb).
  pose proof (ext_safes _ _ H2). pose proof (ext_safes _ _ H3).
  set_solver.
Qed.

Lemma extraction_consistent_mines g a k s :
  consistent g a → knowledge a !! k = Some s →
  Z.of_nat (size (cells s)) = count s → count s > 0 →
  cells s ⊆ mines (extraction a).
Proof.
  intros Ha Hs Hf Hpos.
  pose proof (lookup_lt_Some _ _ _ Hs) as Hk.
  pose proof (extraction_upto_extends k a) as Hext.
  pose proof (consistent_extraction_upto g k a Ha) as Hb.
  destruct (ext_knowledge _ _ Hext k s Hs) as (s' & Hs' & Hsub & Hle).
  pose proof (ext_removed _ _ Hext k s s' Hs Hs') as Hrem.
  pose proof (consistent_lookup g _ _ _ Hb Hs') as Hh'.
  pose proof (holds_full g s (consistent_lookup g _ _ _ Ha Hs) Hf) as Hall.
  pose proof (extract_at_extends (extraction_upto k a) k) as H2.
  pose proof (extraction_after k a Hk) as H3.
  pose proof (cons_safes _ _ Hb).
  pose proof (ext_mines _ _ H2). pose proof (ext_mines _ _ H3).
  assert (cells s' ⊆ mines (extract_at (extraction_upto k a) k)) as Hmarked.
  { destruct (decide (cells s' = ∅)) as [->|Hne]; [set_solver|].
    apply extract_at_mines; [done| |].
    - unfold holds in Hh'. rewrite Hh'. f_equal. f_equal. set_solver.
    - unfold holds in Hh'. rewrite Hh'.
      replace (cells s' ∩ Game.mines g) with (cells s') by set_solver.
      assert (size (cells s') ≠ 0%nat); [|lia].
      intros Hsz. by apply size_empty_inv, leibniz_equiv in Hsz. }
  set_solver.
Qed.

(** ** Cells stay inside the grid *)

Definition inside (h w : Z) (s : Sentence) : Prop :=
  set_Forall (in_bounds h w) (cells s).

Lemma continues_Forall (P : Sentence → Prop) k k' :
  (∀ s s', cells s' ⊆ cells s → P s → P s') →
  continues k k' → length k' = length k → Forall P k → Forall P k'.
Proof.
  intros HP Hc Hl HF. apply Forall_lookup. intros i s' Hs'.
  destruct (lookup_lt_is_Some_2 k i) as [s Hs].
  { apply lookup_lt_Some in Hs'. lia. }
  destruct (Hc i s Hs) as (s'' & Hs'' & Hsub & _). simplify_eq.
  eapply HP; [done|]. by eapply Forall_lookup_1.
Qed.

Lemma inside_subseteq h w s s' : cells s' ⊆ cells s → inside h w s → inside h w s'.
Proof. unfold inside. intros Hsub Hs p Hp. apply Hs. set_solver. Qed.

Lemma observe_inside a c n :
  Forall (inside (height a) (width a)) (knowledge a) →
  Forall (inside (height a) (width a)) (knowledge (observe a c n)).
Proof.
  intros HF. rewrite observe_knowledge. apply Forall_app. split.
  - rewrite Forall_fmap. eapply Forall_impl; [done|]. intros s Hs. simpl.
    eapply inside_subseteq; [|done]. rewrite Sent_mark_safe_cells. set_solver.
  - apply Forall_singleton. intros p Hp. simpl in Hp.
    unfold undetermined in Hp. by apply elem_of_filter in Hp as [? _].
Qed.

Lemma add_knowledge_size fuel a c n a' :
  add_knowledge fuel a c n = Some a' → height a' = height a ∧ width a' = width a.
Proof.
  unfold add_knowledge. cbv zeta.
  destruct (subset_loop _ _) as [k|]; [|done]. intros [= <-]. simpl.
  pose proof (extraction_extends (observe a c n)) as [Hh Hw _ _ _ _ _ _].
  by rewrite Hh, Hw.
Qed.

Lemma add_knowledge_inside fuel a c n a' :
  add_knowledge fuel a c n = Some a' →
  Forall (inside (height a) (width a)) (knowledge a) →
  Forall (inside (height a) (width a)) (knowledge a').
Proof.
  unfold add_knowledge. cbv zeta.
  destruct (subset_loop _ _) as [k|] eqn:Hk; [|done]. intros [= <-] HF. simpl.
  eapply (subset_loop_Forall (inside (height a) (width a))); [| |exact Hk].
  - intros s t n' Hs _ Hn. eapply inside_subseteq; [|exact Hs].
    by eapply infer_cells.
  - pose proof (extraction_extends (observe a c n)) as Hext.
    eapply continues_Forall; [apply inside_subseteq|apply Hext|apply Hext|].
    by apply observe_inside.
Qed.

Lemma reachable_inside h w a :
  reachable h w a →
  height a = h ∧ width a = w ∧ Forall (inside h w) (knowledge a).
Proof.
  induction 1 as [|a c n fuel a' _ (Hh & Hw & HF) Hadd|a _ IH|a r _ IH];
    try done.
  destruct (add_knowledge_size _ _ _ _ _ Hadd) as [Hh' Hw'].
  split_and!; try congruence.
  subst h w. by eapply add_knowledge_inside.
Qed.

(** ** The knowledge of a reachable state is closed under the subset rule *)

Definition closed (k : list Sentence) : Prop :=
  ∀ s t n, s ∈ k → t ∈ k → infer s t = Some n → n ∈ k.

Lemma add_knowledge_closed fuel a c n a' :
  add_knowledge fuel a c n = Some a' → closed (knowledge a').
Proof.
  unfold add_knowledge. cbv zeta.
  destruct (subset_loop _ _) as [k|] eqn:Hk; [|done]. intros [= <-]. simpl.
  intros s t m. by eapply run_closed.
Qed.



Lemma reachable_valid_reachable h w a : reachable_valid h w a → reachable h w a.
Proof.
  induction 1 as [|a c n fuel a' _ IH _ _ Hadd|a _ IH|a r _ IH].
  - constructor.
  - by eapply reach_observe.
  - by apply reach_safe_move.
  - by apply reach_random_move.
Qed.

(** ** The sets an observation leaves *)

Lemma observe_safes a c n : safes (observe a c n) = {[c]} ∪ safes a.
Proof. reflexivity. Qed.

Lemma observe_moves a c n : moves_made (observe a c n) = {[c]} ∪ moves_made a.
Proof. reflexivity. Qed.

Lemma observe_mines a c n : mines (observe a c n) = mines a.
Proof. reflexivity. Qed.

(** ** Marking takes resolved cells out of the sentences *)

(** No cell of a stored sentence is a known mine or a known safe cell, and
    every move made is a known safe cell. *)
Record tidy (a : AI) : Prop := mkTidy {
  tidy_moves : moves_made a ⊆ safes a;
  tidy_cells : Forall (λ s, cells s ## mines a ∧ cells s ## safes a) (knowledge a)
}.

Lemma tidy_mark_safe c a : tidy a → tidy (mark_safe c a).
Proof.
  intros [Hm HF]. split; simpl; [set_solver|].
  rewrite Forall_fmap. eapply Forall_impl; [exact HF|].
  intros s [? ?]. simpl. rewrite Sent_mark_safe_cells. set_solver.
Qed.

Lemma tidy_mark_mine c a : tidy a → tidy (mark_mine c a).
Proof.
  intros [Hm HF]. split; simpl; [set_solver|].
  rewrite Forall_fmap. eapply Forall_impl; [exact HF|].
  intros s [? ?]. simpl. rewrite Sent_mark_mine_cells. set_solver.
Qed.

Lemma tidy_foldl {B} (f : AI → B → AI) (l : list B) a :
  (∀ x b, tidy x → tidy (f x b)) → tidy a → tidy (foldl f a l).
Proof.
  intros Hf. revert a. induction l as [|b l IH]; intros a Ha; simpl; [done|].
  by apply IH, Hf.
Qed.

Lemma tidy_extract_at a k : tidy a → tidy (extract_at a k).
Proof.
  intros Ha. unfold extract_at. destruct (knowledge a !! k) as [s|]; [|done].
  set (a1 := if bool_decide _ then _ else a).
  assert (tidy a1) as Ha1.
  { subst a1. case_bool_decide; [|done].
    apply tidy_foldl; [|done]. intros. by apply tidy_mark_safe. }
  destruct (knowledge a1 !! k) as [s'|]; [|done].
  case_bool_decide; [|done].
  apply tidy_foldl; [|done]. intros. by apply tidy_mark_mine.
Qed.

Lemma tidy_extraction a : tidy a → tidy (extraction a).
Proof. apply tidy_foldl. intros. by apply tidy_extract_at. Qed.

Lemma tidy_observe a c n : tidy a → tidy (observe a c n).
Proof.
  intros [Hm HF]. split.
  - rewrite observe_moves, observe_safes. set_solver.
  - rewrite observe_knowledge, observe_mines, observe_safes.
    apply Forall_app. split.
    + rewrite Forall_fmap. eapply Forall_impl; [exact HF|].
      intros s [? ?]. simpl. rewrite Sent_mark_safe_cells. set_solver.
    + apply Forall_singleton. simpl. unfold undetermined.
      split; intros p [_ Hp]%elem_of_filter.
      * set_solver.
      * intros [->%elem_of_singleton|?]%elem_of_union; [|set_solver].
        assert (c ∈ neighbours c) as Hc by set_solver.
        by apply elem_of_neighbours in Hc as [_ ?].
Qed.

Lemma tidy_add_knowledge fuel a c n a' :
  add_knowledge fuel a c n = Some a' → tidy a → tidy a'.
Proof.
  unfold add_knowledge. cbv zeta.
  destruct (subset_loop _ _) as [k|] eqn:Hk; [|done]. intros [= <-] Ha.
  destruct (tidy_extraction _ (tidy_observe a c n Ha)) as [Hm HF].
  split; simpl; [done|].
  eapply subset_loop_Forall; [|exact HF|exact Hk].
  intros s t m [? ?] _ Hc%infer_cells. set_solver.
Qed.

(** ** Known mines and known safe cells stay apart *)

(** The two sets are disjoint and the sentences hold unresolved cells
    only. *)
Record neat (a : AI) : Prop := mkNeat {
  neat_disjoint : mines a ## safes a;
  neat_tidy : tidy a
}.

Lemma neat_mark_safe c a : c ∉ mines a → neat a → neat (mark_safe c a).
Proof.
  intros Hc [Hd Ht]. split; [|by apply tidy_mark_safe]. simpl. set_solver.
Qed.

Lemma neat_mark_mine c a : c ∉ safes a → neat a → neat (mark_mine c a).
Proof.
  intros Hc [Hd Ht]. split; [|by apply tidy_mark_mine]. simpl. set_solver.
Qed.

Lemma neat_mark_safes l a :
  Forall (λ c, c ∉ mines a) l → neat a → neat (foldl (λ x c, mark_safe c x) a l).
Proof.
  revert a. induction l as [|c l IH]; intros a Hl Ha; simpl; [done|].
  apply Forall_cons in Hl as [Hc Hl]. apply IH; [done|by apply neat_mark_safe].
Qed.

Lemma neat_mark_mines l a :
  Forall (λ c, c ∉ safes a) l → neat a → neat (foldl (λ x c, mark_mine c x) a l).
Proof.
  revert a. induction l as [|c l IH]; intros a Hl Ha; simpl; [done|].
  apply Forall_cons in Hl as [Hc Hl]. apply IH; [done|by apply neat_mark_mine].
Qed.

(** The cells the pass marks are cells of a stored sentence, so they are in
    neither set yet. *)
Lemma neat_extract_at a k : neat a → neat (extract_at a k).
Proof.
  intros Ha. unfold extract_at.
  destruct (knowledge a !! k) as [s|] eqn:Hs; [|done].
  set (a1 := if bool_decide _ then _ else a).
  assert (neat a1) as Ha1.
  { subst a1. case_bool_decide; [|done]. apply neat_mark_safes; [|done].
    apply Forall_forall. intros c Hc%elem_of_elements.
    destruct (Forall_lookup_1 _ _ _ _ (tidy_cells _ (neat_tidy _ Ha)) Hs) as [Hm _].
    unfold Sent.known_safes in Hc. case_bool_decide; set_solver. }
  destruct (knowledge a1 !! k) as [s'|] eqn:Hs'; [|done].
  case_bool_decide; [|done]. apply neat_mark_mines; [|done].
  apply Forall_forall. intros c Hc%elem_of_elements.
  destruct (Forall_lookup_1 _ _ _ _ (tidy_cells _ (neat_tidy _ Ha1)) Hs') as [_ Hsafe].
  unfold Sent.known_mines in Hc. case_bool_decide; set_solver.
Qed.

Lemma neat_extraction a : neat a → neat (extraction a).
Proof.
  unfold extraction. generalize (seq 0 (length (knowledge a))). intros l.
  revert a. induction l as [|i l IH]; intros a Ha; simpl; [done|].
  by apply IH, neat_extract_at.
Qed.

Lemma neat_observe a c n : c ∉ mines a → neat a → neat (observe a c n).
Proof.
  intros Hc [Hd Ht]. split; [|by apply tidy_observe].
  rewrite observe_mines, observe_safes. set_solver.
Qed.

Lemma neat_add_knowledge fuel a c n a' :
  c ∉ mines a → add_knowledge fuel a c n = Some a' → neat a → neat a'.
Proof.
  intros Hc Hadd Ha. split; [|by eapply tidy_add_knowledge, neat_tidy].
  pose proof (neat_disjoint _ (neat_extraction _ (neat_observe a c n Hc Ha))) as Hd.
  revert Hadd. unfold add_knowledge. cbv zeta.
  destruct (subset_loop _ _) as [k|]; [|done]. by intros [= <-].
Qed.

(** * The claims *)

(** ** Concrete games *)

(** A 3 x 2 board with one mine at (1, 0), and the solver after the
    observations of (0, 0), (2, 0) and (2, 1), each with count 1. *)
Definition w_game : Game.t := Game.mk 3 2 {[(1, 0)]}.

Definition w_state1 : AI :=
  {| height := 3; width := 2; moves_made := {[(0, 0)]}; mines := ∅;
     safes := {[(0, 0)]};
     knowledge := [mkSentence {[(0, 1); (1, 0); (1, 1)]} 1] |}.

Definition w_state2 : AI :=
  {| height := 3; width := 2; moves_made := {[(0, 0); (2, 0)]}; mines := ∅;
     safes := {[(0, 0); (2, 0)]};
     knowledge := [mkSentence {[(0, 1); (1, 0); (1, 1)]} 1;
                   mkSentence {[(1, 0); (1, 1); (2, 1)]} 1] |}.

Definition w_state3 : AI :=
  {| height := 3; width := 2; moves_made := {[(0, 0); (2, 0); (2, 1)]};
     mines := ∅; safes := {[(0, 0); (2, 0); (2, 1)]};
     knowledge := [mkSentence {[(0, 1); (1, 0); (1, 1)]} 1;
                   mkSentence {[(1, 0); (1, 1)]} 1;
                   mkSentence {[(1, 0); (1, 1)]} 1;
                   mkSentence {[(0, 1)]} 0] |}.

Lemma w_game_well_formed : Game.well_formed w_game.
Proof. apply (bool_decide_unpack _). by vm_compute. Qed.

Lemma w_step1 :
  add_knowledge 10 (init 3 2) (0, 0) (Game.nearby_mines w_game (0, 0)) = Some w_state1.
Proof. vm_compute. reflexivity. Qed.

Lemma w_step2 :
  add_knowledge 20 w_state1 (2, 0) (Game.nearby_mines w_game (2, 0)) = Some w_state2.
Proof. vm_compute. reflexivity. Qed.

Lemma w_step3 :
  add_knowledge 100 w_state2 (2, 1) (Game.nearby_mines w_game (2, 1)) = Some w_state3.
Proof. vm_compute. reflexivity. Qed.

Lemma w_played1 : played w_game w_state1.
Proof.
  apply (played_observe w_game (init 3 2) (0, 0) 10); [apply played_init|done|].
  apply w_step1.
Qed.

Lemma w_played2 : played w_game w_state2.
Proof.
  apply (played_observe w_game w_state1 (2, 0) 20); [apply w_played1|done|].
  apply w_step2.
Qed.

Lemma w_played3 : played w_game w_state3.
Proof.
  apply (played_observe w_game w_state2 (2, 1) 100); [apply w_played2|done|].
  apply w_step3.
Qed.

(** ** C1: termination of the inference *)

(** A 1 x 1 grid after the observation of (0, 0) with count 1. *)
Definition c1_state : AI :=
  {| height := 1; width := 1; moves_made := {[(0, 0)]}; mines := ∅;
     safes := {[(0, 0)]}; knowledge := [mkSentence ∅ 1] |}.

(** C1, counterexample: on a 1 x 1 grid, after [add_knowledge((0, 0), 1)]
    the call [add_knowledge((0, 0), 2)] never returns, whatever the fuel:
    the knowledge base holds the sentences ({}, 1) and ({}, 2), and the
    subset rule derives ({}, -1), ({}, 3), ({}, -2), ... without end.  Both
    cells are inside the grid and both counts are not negative. *)
Lemma C1_counterexample :
  reachable_valid 1 1 c1_state ∧ in_bounds 1 1 (0, 0) ∧ 0 ≤ 2 ∧
  ∀ fuel, add_knowledge fuel c1_state (0, 0) 2 = None.
Proof.
  split_and!.
  - apply (rv_observe 1 1 (init 1 1) (0, 0) 1 3); [constructor|by vm_compute|lia|].
    vm_compute. reflexivity.
  - by vm_compute.
  - lia.
  - intros fuel. unfold add_knowledge. cbv zeta.
    replace (knowledge (extraction (observe c1_state (0, 0) 2)))
      with [mkSentence ∅ 1; mkSentence ∅ 2] by (vm_compute; reflexivity).
    rewrite diverging_subset_loop; [done| |].
    + repeat constructor.
    + exists (mkSentence ∅ 1), (mkSentence ∅ 2). simpl.
      split_and!; try lia; set_solver.
Qed.

(** C1, amended: when the observations come from a board (the observed cell
    is no mine and the count is the board's count of mines around it), every
    call of [add_knowledge] returns, and the knowledge it returns is closed
    under the subset rule: a full pass appended nothing. *)
Theorem C1_add_knowledge_terminates g a c :
  Game.well_formed g → played g a → Game.is_mine g c = false →
  ∃ fuel a', add_knowledge fuel a c (Game.nearby_mines g c) = Some a' ∧
             closed (knowledge a').
Proof.
  intros Hwf Ha Hc.
  pose proof (played_consistent g a Hwf Ha) as Hcons.
  pose proof (consistent_extraction g _ (consistent_observe g a c Hwf Hcons Hc)) as H1.
  destruct (subset_loop_terminates_holds g _ (cons_knowledge _ _ H1)) as (fuel & k & Hk).
  exists fuel, (set_knowledge k (extraction (observe a c (Game.nearby_mines g c)))).
  assert (add_knowledge fuel a c (Game.nearby_mines g c) =
          Some (set_knowledge k (extraction (observe a c (Game.nearby_mines g c)))))
    as Hadd by (unfold add_knowledge; cbv zeta; by rewrite Hk).
  split; [done|]. by eapply add_knowledge_closed.
Qed.

Lemma C1_witness :
  ∃ fuel a', add_knowledge fuel w_state2 (2, 1) (Game.nearby_mines w_game (2, 1)) = Some a' ∧
             closed (knowledge a').
Proof.
  apply (C1_add_knowledge_terminates w_game w_state2 (2, 1)).
  - apply (bool_decide_unpack _). by vm_compute.
  - apply w_played2.
  - reflexivity.
Defined.

(** ** C2: known mines and known safes are disjoint *)

(** A 1 x 2 grid after [add_knowledge((0, 0), 1)] and
    [add_knowledge((0, 1), 0)]. *)
Definition c2_state1 : AI :=
  {| height := 1; width := 2; moves_made := {[(0, 0)]}; mines := {[(0, 1)]};
     safes := {[(0, 0)]}; knowledge := [mkSentence ∅ 0] |}.

Definition c2_state2 : AI :=
  {| height := 1; width := 2; moves_made := {[(0, 0); (0, 1)]};
     mines := {[(0, 1)]}; safes := {[(0, 0); (0, 1)]};
     knowledge := [mkSentence ∅ 0; mkSentence ∅ 0] |}.

(** C2, counterexample: the first observation makes (0, 1) a known mine, the
    second one observes (0, 1) itself and marks it safe; it is then in both
    sets.  [mark_safe] and [mark_mine] add to their set without looking at
    the other. *)
Lemma C2_counterexample :
  reachable_valid 1 2 c2_state2 ∧
  (0, 1) ∈ mines c2_state2 ∧ (0, 1) ∈ safes c2_state2.
Proof.
  split_and!.
  - apply (rv_observe 1 2 c2_state1 (0, 1) 0 10); [|by vm_compute|lia|].
    + apply (rv_observe 1 2 (init 1 2) (0, 0) 1 10); [constructor|by vm_compute|lia|].
      vm_compute. reflexivity.
    + vm_compute. reflexivity.
  - simpl. set_solver.
  - simpl. set_solver.
Qed.

(** States reached from a fresh solver by the three public operations,
    with any cells and any counts, as long as no call of [add_knowledge]
    observes a cell that is a known mine when the call is made. *)
Inductive reachable_off_mines (h w : Z) : AI → Prop :=
  | rom_init : reachable_off_mines h w (init h w)
  | rom_observe a c n fuel a' :
      reachable_off_mines h w a → c ∉ mines a →
      add_knowledge fuel a c n = Some a' → reachable_off_mines h w a'
  | rom_safe_move a :
      reachable_off_mines h w a → reachable_off_mines h w (make_safe_move a).2
  | rom_random_move a r :
      reachable_off_mines h w a → reachable_off_mines h w (make_random_move r a).2.

(** Playing a board is such a run: the observed cell is no mine, and the
    known mines are mines. *)
Lemma played_off_mines g a :
  Game.well_formed g → played g a →
  reachable_off_mines (Game.height g) (Game.width g) a.
Proof.
  intros Hwf. induction 1 as [|a c fuel a' Ha IH Hc Hadd|a _ IH|a r _ IH].
  - apply rom_init.
  - apply (rom_observe _ _ a c (Game.nearby_mines g c) fuel a' IH); [|done].
    apply bool_decide_eq_false in Hc.
    pose proof (cons_mines _ _ (played_consistent g a Hwf Ha)). set_solver.
  - by apply rom_safe_move.
  - by apply rom_random_move.
Qed.

(** C2, amended: in every state reached from a fresh solver by
    [add_knowledge], [make_safe_move] and [make_random_move], with any cells
    and any counts, in which no call of [add_knowledge] observed a cell that
    was a known mine when the call was made, the known mines and the known
    safes are disjoint. *)
Theorem C2_mines_safes_disjoint h w a :
  reachable_off_mines h w a → mines a ∩ safes a = ∅.
Proof.
  intros Ha. assert (neat a) as [Hd _]; [|set_solver].
  induction Ha as [|a c n fuel a' _ IH Hc Hadd|a _ IH|a r _ IH].
  - split; [simpl; set_solver|]. split; simpl; [set_solver|constructor].
  - by eapply neat_add_knowledge.
  - exact IH.
  - exact IH.
Qed.

Lemma C2_witness : mines c2_state1 ∩ safes c2_state1 = ∅.
Proof.
  apply (C2_mines_safes_disjoint 1 2 c2_state1).
  apply (rom_observe 1 2 (init 1 2) (0, 0) 1 10).
  - apply rom_init.
  - apply (bool_decide_unpack _). by vm_compute.
  - vm_compute. reflexivity.
Defined.

(** ** C3: the subset rule *)


Lemma add_knowledge_sets fuel a c n a' :
  add_knowledge fuel a c n = Some a' →
  moves_made a' = moves_made (extraction (observe a c n)) ∧
  mines a' = mines (extraction (observe a c n)) ∧
  safes a' = safes (extraction (observe a c n)).
Proof.
  unfold add_knowledge. cbv zeta.
  destruct (subset_loop _ _) as [k|]; [|done]. by intros [= <-].
Qed.




(** ** C4: direct extraction *)


(** What the pass does with the sentence it finds at index [k] when its
    loop gets there: with count 0 all its cells end in the safes, with as
    many mines as cells all its cells end in the mines. *)
Lemma extraction_when_reached a k s :
  knowledge (extraction_upto k a) !! k = Some s →
  (count s = 0 → cells s ⊆ safes (extraction a)) ∧
  (Z.of_nat (size (cells s)) = count s → count s > 0 →
   cells s ⊆ mines (extraction a)).
Proof.
  intros Hs.
  pose proof (extraction_after k a (extraction_upto_lookup_lt k a s Hs)) as Hext.
  split.
  - intros Hz. pose proof (extract_at_safes _ _ _ Hs Hz).
    pose proof (ext_safes _ _ Hext). set_solver.
  - intros Hf Hpos. pose proof (extract_at_mines _ _ _ Hs Hf Hpos).
    pose proof (ext_mines _ _ Hext). set_solver.
Qed.




(** ** C5: cells outside the grid and negative counts *)

(** A 2 x 2 solver after [add_knowledge((5, 5), -1)]. *)
Definition c5_state : AI :=
  {| height := 2; width := 2; moves_made := {[(5, 5)]}; mines := ∅;
     safes := {[(5, 5)]}; knowledge := [mkSentence ∅ (-1)] |}.

(** C5, counterexample: on a fresh 2 x 2 solver the call
    [add_knowledge((5, 5), -1)], with a cell outside the grid and a negative
    count, returns as any other call does; afterwards (5, 5) is a move made
    and a known safe cell, and the sentence {} = -1 is stored. *)
Lemma C5_counterexample :
  ¬ in_bounds 2 2 (5, 5) ∧ -1 < 0 ∧
  add_knowledge 3 (init 2 2) (5, 5) (-1) = Some c5_state ∧
  (5, 5) ∈ moves_made c5_state ∧ (5, 5) ∈ safes c5_state ∧
  mkSentence ∅ (-1) ∈ knowledge c5_state.
Proof.
  split_and!.
  - unfold in_bounds. simpl. lia.
  - lia.
  - vm_compute. reflexivity.
  - simpl. set_solver.
  - simpl. set_solver.
  - simpl. set_solver.
Qed.

(** A list of one sentence is a fixed point at once. *)
Lemma subset_loop_singleton s : subset_loop 3 [s] = Some [s].
Proof.
  unfold subset_loop. simpl. unfold step. simpl.
  assert (infer s s = None) as ->.
  { unfold infer. case_bool_decide; [|done].
    rewrite bool_decide_eq_false_2; [done|]. by intros (_ & _ & ?). }
  simpl. unfold step. simpl. reflexivity.
Qed.

Lemma add_knowledge_grows fuel a c n a' :
  add_knowledge fuel a c n = Some a' →
  (length (knowledge a) < length (knowledge a'))%nat ∧
  continues (knowledge a) (knowledge a').
Proof.
  unfold add_knowledge. cbv zeta.
  destruct (subset_loop _ _) as [k|] eqn:Hk; [|done]. intros [= <-]. simpl.
  destruct (subset_loop_extends_list _ _ _ Hk) as [ext ->].
  pose proof (extraction_extends (observe a c n)) as Hext.
  assert (continues (knowledge a) (knowledge (observe a c n))) as Hobs.
  { rewrite observe_knowledge.
    eapply continues_trans; [|apply continues_app].
    apply continues_fmap. intros s.
    rewrite Sent_mark_safe_cells, Sent_mark_safe_count. split; [set_solver|lia]. }
  split.
  - rewrite length_app, (ext_length _ _ Hext), observe_knowledge.
    rewrite length_app, length_fmap. simpl. lia.
  - eapply continues_trans; [exact Hobs|].
    eapply continues_trans; [apply (ext_knowledge _ _ Hext)|apply continues_app].
Qed.

(** C5, amended: [add_knowledge] checks neither the cell nor the count.  On
    a fresh solver it returns for every cell and every count; and whenever a
    call returns, for whatever cell and count, the cell is a move made and a
    known safe cell and the knowledge base is longer than before. *)
Theorem C5_no_validation :
  (∀ h w c n, ∃ fuel a', add_knowledge fuel (init h w) c n = Some a') ∧
  (∀ a c n fuel a', add_knowledge fuel a c n = Some a' →
     c ∈ moves_made a' ∧ c ∈ safes a' ∧
     (length (knowledge a) < length (knowledge a'))%nat).
Proof.
  split.
  - intros h w c n. exists 3%nat. unfold add_knowledge. cbv zeta.
    pose proof (ext_length _ _ (extraction_extends (observe (init h w) c n))) as Hlen.
    rewrite observe_knowledge in Hlen. simpl in Hlen.
    destruct (knowledge (extraction (observe (init h w) c n))) as [|s [|??]];
      try done.
    rewrite subset_loop_singleton. eauto.
  - intros a c n fuel a' Hadd.
    destruct (add_knowledge_sets _ _ _ _ _ Hadd) as (-> & _ & ->).
    pose proof (extraction_extends (observe a c n)) as Hext.
    split_and!.
    + apply (ext_moves _ _ Hext). rewrite observe_moves. set_solver.
    + apply (ext_safes _ _ Hext). rewrite observe_safes. set_solver.
    + by apply (add_knowledge_grows _ _ _ _ _ Hadd).
Qed.

(** ** C6: the sentence of an observation *)

(** The neighbourhood in the words of the specification: the cells other
    than [c] at most one row and one column away. *)
Lemma elem_of_neighbours_adjacent c p :
  p ∈ neighbours c ↔
  p ≠ c ∧ c.1 - 1 ≤ p.1 ≤ c.1 + 1 ∧ c.2 - 1 ≤ p.2 ≤ c.2 + 1.
Proof.
  rewrite elem_of_neighbours, window_eq, !elem_of_cons, elem_of_nil.
  destruct c as [r k], p as [i j]. simpl. split.
  - intros [H Hne]. split; [done|].
    repeat destruct H as [H|H]; try done; injection H as -> ->; lia.
  - intros (Hne & Hi & Hj). split; [|done].
    assert (i = r - 1 ∨ i = r ∨ i = r + 1) as Hi' by lia.
    assert (j = k - 1 ∨ j = k ∨ j = k + 1) as Hj' by lia.
    destruct Hi' as [-> | [-> | ->]], Hj' as [-> | [-> | ->]]; tauto.
Qed.

(** C6: lines 197-224 of [add_knowledge] append exactly one sentence to the
    knowledge base (whose older sentences lose the observed cell): its cells
    are the neighbours of the cell inside the grid that are in none of
    [mines], [safes] and [moves_made], its count is the given count minus
    the number of neighbours in [mines]; it is appended also when it has no
    cell. *)
Theorem C6_observation_sentence a c n :
  knowledge (observe a c n) =
  (Sent.mark_safe c <$> knowledge a) ++
  [mkSentence (undetermined a c) (adjusted_count a c n)].
Proof. apply observe_knowledge. Qed.

(** ** C7: the statement collection across a call *)






(** ** C8: marking twice *)

Lemma Sent_mark_mine_idemp c s :
  Sent.mark_mine c (Sent.mark_mine c s) = Sent.mark_mine c s.
Proof. apply Sent_mark_mine_absent. rewrite Sent_mark_mine_cells. set_solver. Qed.

Lemma Sent_mark_safe_idemp c s :
  Sent.mark_safe c (Sent.mark_safe c s) = Sent.mark_safe c s.
Proof. apply Sent_mark_safe_absent. rewrite Sent_mark_safe_cells. set_solver. Qed.

(** C8: for every cell and every state of the solver, [mark_mine] called
    twice leaves the state [mark_mine] called once leaves, and so does
    [mark_safe]. *)
Theorem C8_marking_idempotent c a :
  mark_mine c (mark_mine c a) = mark_mine c a ∧
  mark_safe c (mark_safe c a) = mark_safe c a.
Proof.
  unfold mark_mine, mark_safe. simpl. split; f_equal.
  - set_solver.
  - rewrite <- list_fmap_compose. apply list_fmap_ext.
    intros i s _. apply Sent_mark_mine_idemp.
  - set_solver.
  - rewrite <- list_fmap_compose. apply list_fmap_ext.
    intros i s _. apply Sent_mark_safe_idemp.
Qed.

(** ** C9: the safe move *)

Lemma head_filter_Some {A} (P : A → Prop) `{!∀ x, Decision (P x)} (l : list A) x :
  head (filter P l) = Some x → x ∈ l ∧ P x.
Proof.
  intros Hh. assert (x ∈ filter P l) as Hin.
  { destruct (filter P l) as [|y l']; simplify_eq/=. by left. }
  by apply list_elem_of_filter in Hin as [? ?].
Qed.

Lemma head_filter_None {A} (P : A → Prop) `{!∀ x, Decision (P x)} (l : list A) :
  head (filter P l) = None ↔ ∀ x, x ∈ l → ¬ P x.
Proof.
  split.
  - intros Hh x Hx HP.
    assert (x ∈ filter P l) as Hin by (by apply list_elem_of_filter).
    destruct (filter P l); [by apply elem_of_nil in Hin|done].
  - intros Hno. destruct (filter P l) as [|y l'] eqn:E; [done|].
    assert (y ∈ filter P l) as Hin by (rewrite E; by left).
    apply list_elem_of_filter in Hin as [HP Hy]. by destruct (Hno y Hy).
Qed.

(** C9: [make_safe_move] leaves the state as it is; a cell it returns is a
    known safe cell that is no move made; when such a cell exists it returns
    one; and it returns [None] exactly when the safes without the moves made
    are the empty set. *)
Theorem C9_make_safe_move a :
  (make_safe_move a).2 = a ∧
  (∀ c, (make_safe_move a).1 = Some c → c ∈ safes a ∧ c ∉ moves_made a) ∧
  ((∃ c, c ∈ safes a ∧ c ∉ moves_made a) →
   ∃ c, (make_safe_move a).1 = Some c ∧ c ∈ safes a ∧ c ∉ moves_made a) ∧
  ((make_safe_move a).1 = None ↔ safes a ∖ moves_made a = ∅).
Proof.
  unfold make_safe_move. simpl.
  assert (∀ c, head (filter (λ c, c ∉ moves_made a) (elements (safes a))) = Some c →
               c ∈ safes a ∧ c ∉ moves_made a) as Hsome.
  { intros c [Hin Hc]%head_filter_Some. by apply elem_of_elements in Hin. }
  assert (head (filter (λ c, c ∉ moves_made a) (elements (safes a))) = None ↔
          safes a ∖ moves_made a = ∅) as Hnone.
  { rewrite head_filter_None. split.
    - intros Hno. apply set_eq. intros x. split; [|set_solver].
      intros [Hx Hm]%elem_of_difference.
      destruct (Hno x); [by apply elem_of_elements|done].
    - intros He x Hx%elem_of_elements Hm. set_solver. }
  split_and!; try done.
  intros (c & Hc & Hm).
  destruct (head (filter (λ c, c ∉ moves_made a) (elements (safes a)))) as [c'|] eqn:E.
  - exists c'. split; [done|]. by apply Hsome.
  - assert (safes a ∖ moves_made a = ∅) as He by (by apply Hnone). set_solver.
Qed.

(** ** C10: cells stay inside the grid *)

(** A 3 x 3 solver after [add_knowledge((3, 1), 1)], a cell below the last
    row. *)
Definition c10_state : AI :=
  {| height := 3; width := 3; moves_made := {[(3, 1)]}; mines := ∅;
     safes := {[(3, 1)]};
     knowledge := [mkSentence {[(2, 0); (2, 1); (2, 2)]} 1] |}.

(** C10: in every state a driver can reach from a fresh [h] x [w] solver,
    whatever cells (also outside the grid) and counts it passes to
    [add_knowledge], every cell of every stored sentence is inside the
    grid. *)
Theorem C10_cells_in_bounds h w a s p :
  reachable h w a → s ∈ knowledge a → p ∈ cells s → in_bounds h w p.
Proof.
  intros Ha Hs Hp. destruct (reachable_inside h w a Ha) as (_ & _ & HF).
  rewrite Forall_forall in HF. by apply (HF s Hs p).
Qed.

Lemma C10_witness : in_bounds 3 3 (2, 0).
Proof.
  apply (C10_cells_in_bounds 3 3 c10_state (mkSentence {[(2, 0); (2, 1); (2, 2)]} 1)).
  - apply (reach_observe 3 3 (init 3 3) (3, 1) 1 10); [constructor|].
    vm_compute. reflexivity.
  - apply (bool_decide_unpack _). by vm_compute.
  - apply (bool_decide_unpack _). by vm_compute.
Defined.

(** * Further properties of the code *)

(** ** Soundness of a played solver *)

(** A 3 x 3 board with one mine at (2, 2), and the solver after the
    observation of (0, 0), which has no mine around it. *)
Definition x_game : Game.t := Game.mk 3 3 {[(2, 2)]}.

Definition x_state1 : AI :=
  {| height := 3; width := 3; moves_made := {[(0, 0)]}; mines := ∅;
     safes := {[(0, 0); (0, 1); (1, 0); (1, 1)]};
     knowledge := [mkSentence ∅ 0] |}.

Lemma x_game_well_formed : Game.well_formed x_game.
Proof. apply (bool_decide_unpack _). by vm_compute. Qed.

Lemma x_step1 :
  add_knowledge 10 (init 3 3) (0, 0) (Game.nearby_mines x_game (0, 0)) = Some x_state1.
Proof. vm_compute. reflexivity. Qed.

Lemma x_played1 : played x_game x_state1.
Proof.
  apply (played_observe x_game (init 3 3) (0, 0) 10); [apply played_init|done|].
  apply x_step1.
Qed.

(** What a solver knows after playing a board is true of the board: its
    known mines are mines, its known safe cells and its moves are none, and
    every stored sentence counts the mines among its cells. *)
Theorem played_sound g a :
  Game.well_formed g → played g a →
  mines a ⊆ Game.mines g ∧ safes a ## Game.mines g ∧
  moves_made a ## Game.mines g ∧
  ∀ s, s ∈ knowledge a → count s = Z.of_nat (size (cells s ∩ Game.mines g)).
Proof.
  intros Hwf Ha. destruct (played_consistent g a Hwf Ha) as [_ _ ? ? ? HF].
  split_and!; try done. by apply Forall_forall.
Qed.

Lemma played_sound_witness :
  mines w_state3 ⊆ Game.mines w_game ∧ safes w_state3 ## Game.mines w_game ∧
  moves_made w_state3 ## Game.mines w_game ∧
  ∀ s, s ∈ knowledge w_state3 →
    count s = Z.of_nat (size (cells s ∩ Game.mines w_game)).
Proof.
  apply (played_sound w_game w_state3).
  - apply (bool_decide_unpack _). by vm_compute.
  - apply w_played3.
Defined.

(** The extraction pass on a solver that is consistent with a board: every
    sentence that has count 0 when the pass starts has all its cells in the
    safes when the pass ends, and every sentence that then has as many mines
    as cells has all its cells in the mines. *)
Theorem extraction_resolves g a k s :
  consistent g a → knowledge a !! k = Some s →
  (count s = 0 → cells s ⊆ safes (extraction a)) ∧
  (Z.of_nat (size (cells s)) = count s → count s > 0 →
   cells s ⊆ mines (extraction a)).
Proof.
  intros Ha Hs. split.
  - by apply (extraction_consistent_safes g a k s).
  - by apply (extraction_consistent_mines g a k s).
Qed.

Lemma extraction_resolves_witness :
  (count (mkSentence {[(0, 1)]} 0) = 0 →
   cells (mkSentence {[(0, 1)]} 0) ⊆ safes (extraction (observe w_state3 (1, 1) 1))) ∧
  (Z.of_nat (size (cells (mkSentence {[(0, 1)]} 0))) = count (mkSentence {[(0, 1)]} 0) →
   count (mkSentence {[(0, 1)]} 0) > 0 →
   cells (mkSentence {[(0, 1)]} 0) ⊆ mines (extraction (observe w_state3 (1, 1) 1))).
Proof.
  apply (extraction_resolves w_game (observe w_state3 (1, 1) 1) 3 (mkSentence {[(0, 1)]} 0)).
  - apply (consistent_observe w_game w_state3 (1, 1)).
    + apply (bool_decide_unpack _). by vm_compute.
    + apply played_consistent; [|apply w_played3].
      apply (bool_decide_unpack _). by vm_compute.
    + reflexivity.
  - vm_compute. reflexivity.
Defined.

(** The move [make_safe_move] proposes to a played solver is no mine of the
    board, and no move made before. *)
Theorem safe_move_is_safe g a c :
  Game.well_formed g → played g a → (make_safe_move a).1 = Some c →
  Game.is_mine g c = false ∧ c ∉ moves_made a.
Proof.
  intros Hwf Ha Hc. pose proof (cons_safes _ _ (played_consistent g a Hwf Ha)) as Hs.
  unfold make_safe_move in Hc. simpl in Hc.
  apply head_filter_Some in Hc as [Hin%elem_of_elements Hm].
  split; [|done]. apply bool_decide_eq_false. set_solver.
Qed.

Lemma safe_move_is_safe_witness :
  Game.is_mine x_game (0, 1) = false ∧ (0, 1) ∉ moves_made x_state1.
Proof.
  apply (safe_move_is_safe x_game x_state1 (0, 1)).
  - apply (bool_decide_unpack _). by vm_compute.
  - apply x_played1.
  - vm_compute. reflexivity.
Defined.

(** ** The random move *)

Lemma elem_of_grid h w p :
  p ∈ (i ← range h; (j ← range w; [(i, j)])) ↔ in_bounds h w p.
Proof.
  unfold range, in_bounds. rewrite list_elem_of_bind. split.
  - intros (i & Hp & Hi). apply list_elem_of_bind in Hp as (j & Hp & Hj).
    apply list_elem_of_singleton in Hp as ->.
    apply elem_of_seqZ in Hi, Hj. simpl. lia.
  - intros [Hi Hj]. exists p.1. split; [|apply elem_of_seqZ; lia].
    apply list_elem_of_bind. exists p.2. split; [|apply elem_of_seqZ; lia].
    destruct p. simpl. by apply list_elem_of_singleton.
Qed.

(** [make_random_move] leaves the state as it is.  A cell it returns is
    inside the grid, no move made and no known mine; every such cell is
    returned for some draw; and it returns [None] exactly when every cell of
    the grid is a move made or a known mine. *)
Theorem make_random_move_spec a :
  (∀ r, (make_random_move r a).2 = a) ∧
  (∀ r c, (make_random_move r a).1 = Some c →
     in_bounds (height a) (width a) c ∧ c ∉ moves_made a ∧ c ∉ mines a) ∧
  (∀ c, in_bounds (height a) (width a) c → c ∉ moves_made a → c ∉ mines a →
     ∃ r, (make_random_move r a).1 = Some c) ∧
  (∀ r, (make_random_move r a).1 = None ↔
     ∀ c, in_bounds (height a) (width a) c → c ∈ moves_made a ∨ c ∈ mines a).
Proof.
  unfold make_random_move. cbv zeta. simpl.
  set (l := filter _ _).
  assert (∀ c, c ∈ l ↔
    in_bounds (height a) (width a) c ∧ c ∉ moves_made a ∧ c ∉ mines a) as Hl.
  { intros c. subst l. rewrite list_elem_of_filter, elem_of_grid. tauto. }
  split_and!.
  - done.
  - intros r c. case_bool_decide; [|done].
    intros Hc. apply Hl. by eapply list_elem_of_lookup_2.
  - intros c Hb Hm Hk.
    assert (c ∈ l) as [i Hi]%list_elem_of_lookup by (by apply Hl).
    pose proof (lookup_lt_Some _ _ _ Hi) as Hlt.
    exists i. rewrite bool_decide_eq_true_2 by lia.
    by rewrite Nat.mod_small.
  - intros r. case_bool_decide as Hlen.
    + split.
      * intros Hn. apply lookup_ge_None in Hn.
        pose proof (Nat.mod_upper_bound r (length l)). lia.
      * intros Hall. destruct l as [|c l'] eqn:E; [simpl in Hlen; lia|].
        assert (c ∈ c :: l') as Hin by (by left).
        apply Hl in Hin as (Hb & ? & ?). destruct (Hall c Hb); done.
    + split; [|done]. intros _ c Hb.
      destruct (decide (c ∈ moves_made a)); [by left|].
      destruct (decide (c ∈ mines a)); [by right|].
      assert (c ∈ l) as Hin by (by apply Hl).
      destruct l; [by apply elem_of_nil in Hin|simpl in Hlen; lia].
Qed.

(** ** The board's count *)

Lemma neighbours_size c : size (neighbours c) = 8%nat.
Proof.
  unfold neighbours. rewrite size_list_to_set; [done|].
  repeat (apply NoDup_cons; split;
    [rewrite ?elem_of_cons, elem_of_nil;
     intros H; repeat destruct H as [H|H]; try done; injection H; lia|]).
  apply NoDup_nil_2.
Qed.

(** [nearby_mines] counts the mines inside the grid among the neighbours of
    the cell, the cell itself left out; the count lies between 0 and 8. *)
Theorem nearby_mines_spec g c :
  Game.nearby_mines g c =
  Z.of_nat (size (neighbours c ∩
     filter (in_bounds (Game.height g) (Game.width g)) (Game.mines g))) ∧
  0 ≤ Game.nearby_mines g c ≤ 8.
Proof.
  assert (Game.nearby_mines g c =
    Z.of_nat (size (neighbours c ∩
      filter (in_bounds (Game.height g) (Game.width g)) (Game.mines g)))) as Heq.
  { unfold Game.nearby_mines.
    rewrite nearby_foldl, size_neighbours_inter, Z.add_0_l. f_equal.
    apply filter_length_ext. intros p _. rewrite elem_of_filter. tauto. }
  split; [done|]. rewrite Heq.
  pose proof (neighbours_size c) as H8.
  assert (size (neighbours c ∩
      filter (in_bounds (Game.height g) (Game.width g)) (Game.mines g))
    ≤ size (neighbours c))%nat by (apply subseteq_size; set_solver).
  lia.
Qed.

(** ** Stored sentences hold unresolved cells only *)

(** In every state a driver can reach, whatever it passes to
    [add_knowledge], the cells of the stored sentences are neither known
    mines nor known safe cells nor moves made, and every move made is a
    known safe cell. *)
Theorem reachable_tidy h w a s :
  reachable h w a → s ∈ knowledge a →
  moves_made a ⊆ safes a ∧
  cells s ## mines a ∧ cells s ## safes a ∧ cells s ## moves_made a.
Proof.
  intros Ha Hs.
  assert (tidy a) as [Hm HF].
  { clear s Hs. induction Ha as [|a c n fuel a' _ IH Hadd|a _ IH|a r _ IH].
    - split; simpl; [set_solver|constructor].
    - by eapply tidy_add_knowledge.
    - exact IH.
    - exact IH. }
  rewrite Forall_forall in HF. destruct (HF s Hs). set_solver.
Qed.

Lemma reachable_tidy_witness :
  moves_made w_state3 ⊆ safes w_state3 ∧
  cells (mkSentence {[(1, 0); (1, 1)]} 1) ## mines w_state3 ∧
  cells (mkSentence {[(1, 0); (1, 1)]} 1) ## safes w_state3 ∧
  cells (mkSentence {[(1, 0); (1, 1)]} 1) ## moves_made w_state3.
Proof.
  apply (reachable_tidy 3 2 w_state3 (mkSentence {[(1, 0); (1, 1)]} 1)).
  - apply (reach_observe 3 2 w_state2 (2, 1) 1 100); [|vm_compute; reflexivity].
    apply (reach_observe 3 2 w_state1 (2, 0) 1 20); [|vm_compute; reflexivity].
    apply (reach_observe 3 2 (init 3 2) (0, 0) 1 10); [|vm_compute; reflexivity].
    apply reach_init.
  - apply (bool_decide_unpack _). by vm_compute.
Defined.

(** ** The fixed point of the subset rule *)

Lemma closed_run_unchanged k fuel st k' :
  closed k → lk st = k → run fuel st = Some k' → k' = k.
Proof.
  intros Hc Hk Hr.
  assert (∃ st', lk st' = k ∧ step st' = inr k') as (st' & Hk' & Hs).
  { eapply (run_invariant (λ st, lk st = k)); [|exact Hk|exact Hr].
    clear -Hc. intros st st' Hk [?|?|?|s t n Hi Hj Hn Hnot ->]%step_inl;
      subst; simpl; try done.
    destruct Hnot. eapply Hc; [| |exact Hn]; by eapply list_elem_of_lookup_2. }
  apply step_inr in Hs as (_ & _ & ->). done.
Qed.

Lemma closed_subset_loop k : closed k → ∃ fuel, subset_loop fuel k = Some k.
Proof.
  intros Hc.
  assert (∃ fuel k', subset_loop fuel k = Some k') as (fuel & k' & Hr).
  { apply (subset_loop_terminates k (λ s, s ∈ k)).
    - done.
    - intros s t n Hs Ht Hn. exact (Hc s t n Hs Ht Hn).
    - by apply Forall_forall. }
  exists fuel. rewrite Hr. f_equal.
  by eapply (closed_run_unchanged k fuel (mkLoop k 0 0 false)).
Qed.

(** A list that is closed under the subset rule is what the loop returns
    for it, and a list the loop returns unchanged is closed: the loop is at
    rest exactly on the closed lists. *)
Theorem subset_loop_fixed_point k :
  (∃ fuel, subset_loop fuel k = Some k) ↔ closed k.
Proof.
  split.
  - intros [fuel Hr]. intros s t n. by eapply run_closed.
  - apply closed_subset_loop.
Qed.

(** Every call of [add_knowledge] that returns leaves the knowledge base
    closed under the subset rule: for stored sentences [s] and [t] with
    the cells of [t] among those of [s], both counts not 0 and [s], [t]
    different, the difference sentence is stored; and the loop run once
    more on the returned knowledge base would return it as it is. *)
Theorem add_knowledge_fixed_point fuel a c n a' :
  add_knowledge fuel a c n = Some a' →
  (∀ s t, s ∈ knowledge a' → t ∈ knowledge a' →
     cells t ⊆ cells s → count s ≠ 0 → count t ≠ 0 → s ≠ t →
     mkSentence (cells s ∖ cells t) (count s - count t) ∈ knowledge a') ∧
  ∃ fuel', subset_loop fuel' (knowledge a') = Some (knowledge a').
Proof.
  intros Hadd. pose proof (add_knowledge_closed _ _ _ _ _ Hadd) as Hc. split.
  - intros s t Hs Ht Hsub Hcs Hct Hne. eapply Hc; [exact Hs|exact Ht|].
    by apply infer_Some.
  - by apply closed_subset_loop.
Qed.

Lemma add_knowledge_fixed_point_witness :
  (∀ s t, s ∈ knowledge w_state3 → t ∈ knowledge w_state3 →
     cells t ⊆ cells s → count s ≠ 0 → count t ≠ 0 → s ≠ t →
     mkSentence (cells s ∖ cells t) (count s - count t) ∈ knowledge w_state3) ∧
  ∃ fuel', subset_loop fuel' (knowledge w_state3) = Some (knowledge w_state3).
Proof.
  apply (add_knowledge_fixed_point 100 w_state2 (2, 1) 1 w_state3).
  vm_compute. reflexivity.
Defined.

(** ** What a call changes and what it keeps *)

Lemma foldl_moves {B} (f : AI → B → AI) (l : list B) a :
  (∀ x b, moves_made (f x b) = moves_made x) →
  moves_made (foldl f a l) = moves_made a.
Proof.
  intros Hf. revert a. induction l as [|b l IH]; intros a; simpl; [done|].
  by rewrite IH, Hf.
Qed.

Lemma extract_at_moves a k : moves_made (extract_at a k) = moves_made a.
Proof.
  unfold extract_at. destruct (knowledge a !! k) as [s|]; [|done].
  set (a1 := if bool_decide _ then _ else a).
  assert (moves_made a1 = moves_made a) as H1.
  { subst a1. case_bool_decide; [|done]. by apply foldl_moves. }
  destruct (knowledge a1 !! k) as [s'|]; [|done].
  case_bool_decide; [|done]. rewrite <- H1. by apply foldl_moves.
Qed.

Lemma extraction_moves a : moves_made (extraction a) = moves_made a.
Proof. apply foldl_moves. intros. apply extract_at_moves. Qed.

(** A call of [add_knowledge] that returns keeps the size of the grid, adds
    exactly the observed cell to the moves made, marks the observed cell
    safe, and takes nothing out of the known safes and the known mines. *)
Theorem add_knowledge_frame fuel a c n a' :
  add_knowledge fuel a c n = Some a' →
  height a' = height a ∧ width a' = width a ∧
  moves_made a' = {[c]} ∪ moves_made a ∧
  {[c]} ∪ safes a ⊆ safes a' ∧ mines a ⊆ mines a'.
Proof.
  intros Hadd. destruct (add_knowledge_size _ _ _ _ _ Hadd) as [Hh Hw].
  destruct (add_knowledge_sets _ _ _ _ _ Hadd) as (-> & -> & ->).
  pose proof (extraction_extends (observe a c n)) as Hext.
  split_and!; try done.
  - by rewrite extraction_moves.
  - apply (ext_safes _ _ Hext).
  - apply (ext_mines _ _ Hext).
Qed.

Lemma add_knowledge_frame_witness :
  height w_state3 = height w_state2 ∧ width w_state3 = width w_state2 ∧
  moves_made w_state3 = {[(2, 1)]} ∪ moves_made w_state2 ∧
  {[(2, 1)]} ∪ safes w_state2 ⊆ safes w_state3 ∧ mines w_state2 ⊆ mines w_state3.
Proof.
  apply (add_knowledge_frame 100 w_state2 (2, 1) 1 w_state3).
  vm_compute. reflexivity.
Defined.

(** ** Known mines are inside the grid *)

Record bounded (h w : Z) (a : AI) : Prop := mkBounded {
  bounded_mines : set_Forall (in_bounds h w) (mines a);
  bounded_cells : Forall (inside h w) (knowledge a)
}.

Lemma bounded_mark_safe h w c a : bounded h w a → bounded h w (mark_safe c a).
Proof.
  intros [Hm HF]. split; simpl; [done|].
  rewrite Forall_fmap. eapply Forall_impl; [exact HF|]. intros s Hs. simpl.
  eapply inside_subseteq; [|exact Hs]. rewrite Sent_mark_safe_cells. set_solver.
Qed.

Lemma bounded_mark_mine h w c a :
  in_bounds h w c → bounded h w a → bounded h w (mark_mine c a).
Proof.
  intros Hc [Hm HF]. split; simpl.
  - intros p [->%elem_of_singleton|Hp]%elem_of_union; [done|by apply Hm].
  - rewrite Forall_fmap. eapply Forall_impl; [exact HF|]. intros s Hs. simpl.
    eapply inside_subseteq; [|exact Hs]. rewrite Sent_mark_mine_cells. set_solver.
Qed.

Lemma bounded_mark_mines h w l a :
  Forall (in_bounds h w) l → bounded h w a →
  bounded h w (foldl (λ x c, mark_mine c x) a l).
Proof.
  intros Hl. revert a. induction Hl as [|c l Hc _ IH]; intros a Ha; simpl; [done|].
  by apply IH, bounded_mark_mine.
Qed.

Lemma bounded_mark_safes h w l a :
  bounded h w a → bounded h w (foldl (λ x c, mark_safe c x) a l).
Proof.
  revert a. induction l as [|c l IH]; intros a Ha; simpl; [done|].
  by apply IH, bounded_mark_safe.
Qed.

Lemma bounded_extract_at h w a k : bounded h w a → bounded h w (extract_at a k).
Proof.
  intros Ha. unfold extract_at. destruct (knowledge a !! k) as [s|]; [|done].
  set (a1 := if bool_decide _ then _ else a).
  assert (bounded h w a1) as Ha1.
  { subst a1. case_bool_decide; [|done]. by apply bounded_mark_safes. }
  destruct (knowledge a1 !! k) as [s'|] eqn:Hs'; [|done].
  case_bool_decide; [|done].
  apply bounded_mark_mines; [|done].
  apply Forall_forall. intros p Hp%elem_of_elements.
  pose proof (Forall_lookup_1 _ _ _ _ (bounded_cells _ _ _ Ha1) Hs') as Hin.
  apply Hin. unfold Sent.known_mines in Hp. case_bool_decide; set_solver.
Qed.

Lemma bounded_extraction h w a : bounded h w a → bounded h w (extraction a).
Proof.
  unfold extraction. generalize (seq 0 (length (knowledge a))). intros l.
  revert a. induction l as [|i l IH]; intros a Ha; simpl; [done|].
  by apply IH, bounded_extract_at.
Qed.

Lemma bounded_add_knowledge fuel a c n a' :
  add_knowledge fuel a c n = Some a' →
  bounded (height a) (width a) a → bounded (height a) (width a) a'.
Proof.
  unfold add_knowledge. cbv zeta.
  destruct (subset_loop _ _) as [k|] eqn:Hk; [|done]. intros [= <-] [Hm HF].
  assert (bounded (height a) (width a) (observe a c n)) as Hobs.
  { split; [by rewrite observe_mines|by apply observe_inside]. }
  destruct (bounded_extraction _ _ _ Hobs) as [Hm' HF'].
  split; simpl; [done|].
  eapply subset_loop_Forall; [|exact HF'|exact Hk].
  intros s t m Hs _ Hc%infer_cells. by eapply inside_subseteq.
Qed.

(** In every state a driver can reach, whatever it passes to
    [add_knowledge], every known mine is a cell of the grid. *)
Theorem known_mines_in_bounds h w a p :
  reachable h w a → p ∈ mines a → in_bounds h w p.
Proof.
  intros Ha Hp.
  assert (height a = h ∧ width a = w ∧ bounded h w a) as (_ & _ & [Hm _]).
  { clear p Hp. induction Ha as [|a c n fuel a' _ (Hh & Hw & IH) Hadd|a _ IH|a r _ IH].
    - by split_and!.
    - destruct (add_knowledge_size _ _ _ _ _ Hadd) as [Hh' Hw'].
      split_and!; try congruence. subst h w. by eapply bounded_add_knowledge.
    - exact IH.
    - exact IH. }
  by apply Hm.
Qed.

Lemma known_mines_in_bounds_witness : in_bounds 1 2 (0, 1).
Proof.
  apply (known_mines_in_bounds 1 2 c2_state1 (0, 1)).
  - apply (reach_observe 1 2 (init 1 2) (0, 0) 1 10); [apply reach_init|].
    vm_compute. reflexivity.
  - apply (bool_decide_unpack _). by vm_compute.
Defined.

(** ** What an observation settles at once *)

Lemma observe_last a c n :
  knowledge (observe a c n) !! length (knowledge a) =
  Some (mkSentence (undetermined a c) (adjusted_count a c n)).
Proof.
  rewrite observe_knowledge, lookup_app_r by (rewrite length_fmap; lia).
  by rewrite length_fmap, Nat.sub_diag.
Qed.

(** While a board is played: when the observation's sentence has count 0
    (the count of the cell minus its known mines), the call marks every
    undetermined neighbour safe; when its count is the number of its cells,
    the call marks every undetermined neighbour as a mine. *)
Theorem observation_settles g a c fuel a' :
  Game.well_formed g → played g a → Game.is_mine g c = false →
  add_knowledge fuel a c (Game.nearby_mines g c) = Some a' →
  (adjusted_count a c (Game.nearby_mines g c) = 0 →
   undetermined a c ⊆ safes a') ∧
  (adjusted_count a c (Game.nearby_mines g c) = Z.of_nat (size (undetermined a c)) →
   undetermined a c ⊆ mines a').
Proof.
  intros Hwf Ha Hc Hadd.
  destruct (add_knowledge_sets _ _ _ _ _ Hadd) as (_ & -> & ->).
  pose proof (consistent_observe g a c Hwf (played_consistent g a Hwf Ha) Hc) as Hb.
  pose proof (observe_last a c (Game.nearby_mines g c)) as Hlast.
  split.
  - intros Hz.
    by apply (extraction_consistent_safes g _ _ _ Hb Hlast).
  - intros Hf. destruct (decide (undetermined a c = ∅)) as [->|Hne]; [set_solver|].
    apply (extraction_consistent_mines g _ _ _ Hb Hlast); simpl; [done|].
    rewrite Hf. assert (size (undetermined a c) ≠ 0%nat); [|lia].
    intros Hsz. by apply size_empty_inv, leibniz_equiv in Hsz.
Qed.

Lemma observation_settles_witness :
  (adjusted_count (init 3 3) (0, 0) (Game.nearby_mines x_game (0, 0)) = 0 →
   undetermined (init 3 3) (0, 0) ⊆ safes x_state1) ∧
  (adjusted_count (init 3 3) (0, 0) (Game.nearby_mines x_game (0, 0)) =
     Z.of_nat (size (undetermined (init 3 3) (0, 0))) →
   undetermined (init 3 3) (0, 0) ⊆ mines x_state1).
Proof.
  apply (observation_settles x_game (init 3 3) (0, 0) 10 x_state1).
  - apply (bool_decide_unpack _). by vm_compute.
  - apply played_init.
  - reflexivity.
  - vm_compute. reflexivity.
Defined.

(** While a board is played: after an observation whose sentence has count
    0 and at least one cell, [make_safe_move] has a move to propose. *)
Theorem safe_move_after_zero g a c fuel a' :
  Game.well_formed g → played g a → Game.is_mine g c = false →
  add_knowledge fuel a c (Game.nearby_mines g c) = Some a' →
  adjusted_count a c (Game.nearby_mines g c) = 0 →
  undetermined a c ≠ ∅ →
  ∃ m, (make_safe_move a').1 = Some m.
Proof.
  intros Hwf Ha Hc Hadd Hz Hne.
  assert (undetermined a c ⊆ safes a') as Hs.
  { pose proof (consistent_observe g a c Hwf (played_consistent g a Hwf Ha) Hc) as Hb.
    destruct (add_knowledge_sets _ _ _ _ _ Hadd) as (_ & _ & ->).
    by apply (extraction_consistent_safes g _ _ _ Hb
                (observe_last a c (Game.nearby_mines g c))). }
  assert (moves_made a' = {[c]} ∪ moves_made a) as Hm.
  { destruct (add_knowledge_sets _ _ _ _ _ Hadd) as (-> & _ & _).
    by rewrite extraction_moves. }
  apply set_choose_L in Hne as [p Hp].
  assert (p ∉ moves_made a') as Hpm.
  { rewrite Hm. unfold undetermined in Hp.
    apply elem_of_filter in Hp as [_ Hp].
    intros [->%elem_of_singleton|?]%elem_of_union; [|set_solver].
    assert (c ∈ neighbours c) as Hcc by set_solver.
    by apply elem_of_neighbours in Hcc as [_ ?]. }
  unfold make_safe_move. simpl.
  destruct (head (filter (λ c0, c0 ∉ moves_made a') (elements (safes a'))))
    as [m|] eqn:E; [by exists m|].
  rewrite head_filter_None in E.
  destruct (E p); [|done]. apply elem_of_elements. by apply Hs.
Qed.

Lemma safe_move_after_zero_witness : ∃ m, (make_safe_move x_state1).1 = Some m.
Proof.
  apply (safe_move_after_zero x_game (init 3 3) (0, 0) 10 x_state1).
  - apply (bool_decide_unpack _). by vm_compute.
  - apply played_init.
  - reflexivity.
  - vm_compute. reflexivity.
  - vm_compute. reflexivity.
  - apply (bool_decide_unpack _). by vm_compute.
Defined.

(** ** Calls that never return *)

(** When the knowledge base the loop starts from has only sentences without
    cells, two of them with counts that differ and are not 0, the call of
    [add_knowledge] does not return, whatever the fuel. *)
Theorem add_knowledge_diverges a c n :
  empty_cells (knowledge (extraction (observe a c n))) →
  two_counts (knowledge (extraction (observe a c n))) →
  ∀ fuel, add_knowledge fuel a c n = None.
Proof.
  intros He Ht fuel. unfold add_knowledge. cbv zeta.
  by rewrite diverging_subset_loop.
Qed.

Lemma add_knowledge_diverges_witness :
  add_knowledge 1000 c1_state (0, 0) 2 = None.
Proof.
  apply (add_knowledge_diverges c1_state (0, 0) 2).
  - apply (bool_decide_unpack _). by vm_compute.
  - exists (mkSentence ∅ 1), (mkSentence ∅ 2). split_and!.
    + apply (bool_decide_unpack _). by vm_compute.
    + apply (bool_decide_unpack _). by vm_compute.
    + simpl. lia.
    + simpl. lia.
    + simpl. lia.
Defined.

(** * [class Minesweeper] with its board array

    [Game.t] above keeps the set of mines only.  Here the class is modelled
    as it is written, with the array [self.board] beside the set
    [self.mines], Python's list indexing (negative indices count from the
    end, others raise [IndexError]) and [randrange], to show that the array
    and the set agree and that [Game.is_mine] and [Game.nearby_mines] give
    what the methods of the class give. *)

Module Board.

Inductive error := ValueError | IndexError.

(** What a call gives: a value, an exception, or nothing yet because the
    random draws handed to the model are used up. *)
Inductive outcome (A : Type) :=
  | Ok (x : A)
  | Err (e : error)
  | More.
Arguments Ok {A} x.
Arguments Err {A} e.
Arguments More {A}.

Record t := mk {
  height : Z;
  width : Z;
  board : list (list bool);
  mines : gset Cell;
  mines_found : gset Cell
}.

(** The position of index [i] in a list of length [len]: [l[i]] in Python. *)
Definition position (len : nat) (i : Z) : option nat :=
  if bool_decide (0 ≤ i < Z.of_nat len) then Some (Z.to_nat i)
  else if bool_decide (- Z.of_nat len ≤ i < 0) then Some (Z.to_nat (Z.of_nat len + i))
  else None.

Definition index {A} (l : list A) (i : Z) : option A :=
  k ← position (length l) i; l !! k.

(** [self.board[i][j]] *)
Definition get (b : list (list bool)) (i j : Z) : option bool :=
  row ← index b i; index row j.

(** [self.board[i][j] = v] *)
Definition set (b : list (list bool)) (i j : Z) (v : bool) : option (list (list bool)) :=
  ki ← position (length b) i;
  row ← b !! ki;
  kj ← position (length row) j;
  Some (<[ki := <[kj := v]> row]> b).

(** Lines 17-23: [height] rows of [width] times [False]; [range] of a
    negative number is empty. *)
Definition empty_board (h w : Z) : list (list bool) :=
  replicate (Z.to_nat h) (replicate (Z.to_nat w) false).

(** [random.randrange(n)]: a number below [n], here the draw [r] reduced
    modulo [n]; [ValueError] when the range is empty. *)
Definition randrange (n : Z) (r : nat) : option Z :=
  if bool_decide (0 < n) then Some (Z.of_nat r `mod` n) else None.

(** Lines 26-31: the loop that places the mines, one pair of draws for each
    iteration. *)
Fixpoint place (h w n : Z) (draws : list (nat * nat))
    (b : list (list bool)) (m : gset Cell) : outcome (list (list bool) * gset Cell) :=
  if bool_decide (Z.of_nat (size m) = n) then Ok (b, m)
  else match draws with
       | [] => More
       | (r1, r2) :: draws' =>
           match randrange h r1, randrange w r2 with
           | Some i, Some j =>
               match get b i j with
               | Some true => place h w n draws' b m
               | Some false =>
                   match set b i j true with
                   | Some b' => place h w n draws' b' ({[(i, j)]} ∪ m)
                   | None => Err IndexError
                   end
               | None => Err IndexError
               end
           | _, _ => Err ValueError
           end
       end.

(** [Minesweeper.__init__] *)
Definition new (h w n : Z) (draws : list (nat * nat)) : outcome t :=
  match place h w n draws (empty_board h w) ∅ with
  | Ok (b, m) => Ok (mk h w b m ∅)
  | Err e => Err e
  | More => More
  end.

(** [is_mine]: [self.board[i][j]] *)
Definition is_mine (g : t) (c : Cell) : outcome bool :=
  match get (board g) c.1 c.2 with
  | Some v => Ok v
  | None => Err IndexError
  end.

(** One iteration of the loops of [nearby_mines]. *)
Definition nearby_step (g : t) (c : Cell) (acc : outcome Z) (p : Cell) : outcome Z :=
  match acc with
  | Ok cnt =>
      if bool_decide (p = c) then Ok cnt
      else if bool_decide (in_bounds (height g) (width g) p)
           then match get (board g) p.1 p.2 with
                | Some true => Ok (cnt + 1)
                | Some false => Ok cnt
                | None => Err IndexError
                end
           else Ok cnt
  | _ => acc
  end.

Definition nearby_mines (g : t) (c : Cell) : outcome Z :=
  foldl (nearby_step g c) (Ok 0) (window c).

(** [won]: [self.mines_found == self.mines] *)
Definition won (g : t) : bool := bool_decide (mines_found g = mines g).

(** The game as the solver's proofs see it. *)
Definition view (g : t) : Game.t := Game.mk (height g) (width g) (mines g).

(** The array has the shape of the grid, the mines are cells of the grid,
    and the array holds [True] exactly at the mines. *)
Record agrees (h w : Z) (b : list (list bool)) (m : gset Cell) : Prop := mkAgrees {
  agrees_rows : length b = Z.to_nat h;
  agrees_cols : Forall (λ row, length row = Z.to_nat w) b;
  agrees_mines : set_Forall (in_bounds h w) m;
  agrees_cells : ∀ i j, in_bounds h w (i, j) →
    get b i j = Some (bool_decide ((i, j) ∈ m))
}.

End Board.

(** ** Indexing the board *)

Lemma position_Some len i k :
  Board.position len i = Some k ↔
  (0 ≤ i < Z.of_nat len ∧ k = Z.to_nat i) ∨
  (- Z.of_nat len ≤ i < 0 ∧ k = Z.to_nat (Z.of_nat len + i)).
Proof.
  unfold Board.position. repeat case_bool_decide; split;
    try intros [= <-]; try intros [[? ->]|[? ->]]; try lia; try done;
    first [left; split; [lia|done] | right; split; [lia|done] | idtac].
Qed.

Lemma position_lt len i k : Board.position len i = Some k → (k < len)%nat.
Proof. rewrite position_Some. lia. Qed.

Lemma position_None len i :
  Board.position len i = None ↔ ¬ (- Z.of_nat len ≤ i < Z.of_nat len).
Proof. unfold Board.position. repeat case_bool_decide; split; try done; lia. Qed.

Lemma position_inside len i :
  0 ≤ i < Z.of_nat len → Board.position len i = Some (Z.to_nat i).
Proof. intros. apply position_Some. by left. Qed.

Lemma board_get_inside h w b i j :
  length b = Z.to_nat h → Forall (λ row, length row = Z.to_nat w) b →
  in_bounds h w (i, j) →
  Board.get b i j = (row ← b !! Z.to_nat i; row !! Z.to_nat j).
Proof.
  intros Hr Hc [Hi Hj]. simpl in Hi, Hj. unfold Board.get, Board.index.
  rewrite position_inside by lia. simpl.
  destruct (b !! Z.to_nat i) as [row|] eqn:Hrow; simpl; [|done].
  pose proof (Forall_lookup_1 _ _ _ _ Hc Hrow) as Hlen. simpl in Hlen.
  rewrite position_inside by lia. done.
Qed.

Lemma agrees_empty h w : Board.agrees h w (Board.empty_board h w) ∅.
Proof.
  unfold Board.empty_board. split.
  - by rewrite length_replicate.
  - apply Forall_replicate. by rewrite length_replicate.
  - by intros p ?%elem_of_empty.
  - intros i j Hb. rewrite (board_get_inside h w).
    + destruct Hb as [Hi Hj]. simpl in Hi, Hj.
      rewrite lookup_replicate_2 by lia. simpl.
      rewrite lookup_replicate_2 by lia.
      by rewrite bool_decide_eq_false_2 by set_solver.
    + by rewrite length_replicate.
    + apply Forall_replicate. by rewrite length_replicate.
    + done.
Qed.

Lemma agrees_set h w b m i j b' :
  Board.agrees h w b m → in_bounds h w (i, j) →
  Board.set b i j true = Some b' →
  Board.agrees h w b' ({[(i, j)]} ∪ m).
Proof.
  intros [Hr Hc Hm Hcells] Hb Hset.
  pose proof Hb as [Hi Hj]. simpl in Hi, Hj.
  unfold Board.set in Hset. rewrite position_inside in Hset by lia.
  simpl in Hset. destruct (b !! Z.to_nat i) as [row|] eqn:Hrow; simpl in Hset; [|done].
  pose proof (Forall_lookup_1 _ _ _ _ Hc Hrow) as Hlen. simpl in Hlen.
  rewrite position_inside in Hset by lia. simpl in Hset.
  injection Hset as <-.
  assert (length (<[Z.to_nat i := <[Z.to_nat j := true]> row]> b) = Z.to_nat h)
    as Hr' by (by rewrite length_insert).
  assert (Forall (λ row0, length row0 = Z.to_nat w)
            (<[Z.to_nat i := <[Z.to_nat j := true]> row]> b)) as Hc'.
  { apply Forall_insert; [done|]. by rewrite length_insert. }
  split; try done.
  - intros p [->%elem_of_singleton|Hp]%elem_of_union; [done|by apply Hm].
  - intros i' j' Hb'. rewrite (board_get_inside h w) by done.
    pose proof Hb' as [Hi' Hj']. simpl in Hi', Hj'.
    specialize (Hcells i' j' Hb'). rewrite (board_get_inside h w) in Hcells by done.
    destruct (decide (i' = i)) as [->|Hne].
    + rewrite list_lookup_insert_eq by lia. simpl.
      rewrite Hrow in Hcells. simpl in Hcells.
      destruct (decide (j' = j)) as [->|Hnej].
      * rewrite list_lookup_insert_eq by lia.
        by rewrite bool_decide_eq_true_2 by set_solver.
      * rewrite list_lookup_insert_ne by lia. rewrite Hcells. f_equal.
        apply bool_decide_ext. split; [set_solver|].
        intros [[= ?]%elem_of_singleton|?]%elem_of_union; [lia|done].
    + rewrite list_lookup_insert_ne by lia. rewrite Hcells. f_equal.
      apply bool_decide_ext. split; [set_solver|].
      intros [[= ? ?]%elem_of_singleton|?]%elem_of_union; [lia|done].
Qed.

Lemma randrange_Some n r i : Board.randrange n r = Some i → 0 ≤ i < n.
Proof.
  unfold Board.randrange. case_bool_decide; [|done]. intros [= <-].
  by apply Z.mod_pos_bound.
Qed.

(** The loop keeps the array and the set in agreement, and ends only with
    the number of mines asked for. *)
Lemma place_agrees h w n draws b m b' m' :
  Board.agrees h w b m → Board.place h w n draws b m = Board.Ok (b', m') →
  Board.agrees h w b' m' ∧ Z.of_nat (size m') = n.
Proof.
  revert b m. induction draws as [|[r1 r2] draws IH]; intros b m Ha; simpl;
    case_bool_decide as Hn; try done.
  - by intros [= <- <-].
  - by intros [= <- <-].
  - destruct (Board.randrange h r1) as [i|] eqn:Hi; [|done].
    destruct (Board.randrange w r2) as [j|] eqn:Hj; [|done].
    apply randrange_Some in Hi, Hj.
    destruct (Board.get b i j) as [[]|]; [by apply IH| |done].
    destruct (Board.set b i j true) as [b1|] eqn:Hset; [|done].
    apply IH. by eapply agrees_set.
Qed.

Lemma size_list_to_set_le (l : list Cell) :
  (size (list_to_set l : gset Cell) ≤ length l)%nat.
Proof.
  induction l as [|x l IH].
  { rewrite list_to_set_nil, size_empty. done. }
  rewrite list_to_set_cons, size_union_alt, size_singleton. simpl.
  assert (size (list_to_set l ∖ {[x]} : gset Cell) ≤ size (list_to_set l : gset Cell))%nat
    by (apply subseteq_size; set_solver).
  lia.
Qed.

Lemma length_bind_const {A B} (f : A → list B) (k : nat) (l : list A) :
  (∀ x, length (f x) = k) → length (l ≫= f) = (length l * k)%nat.
Proof.
  intros Hf. induction l as [|x l IH]; [done|].
  rewrite bind_cons, length_app, IH, Hf. simpl. lia.
Qed.

Lemma grid_length h w :
  length (i ← range h; (j ← range w; [(i, j)])) = (Z.to_nat h * Z.to_nat w)%nat.
Proof.
  unfold range. rewrite (length_bind_const _ (Z.to_nat w)).
  - by rewrite length_seqZ.
  - intros i. rewrite (length_bind_const _ 1%nat); [|done].
    rewrite length_seqZ. lia.
Qed.

(** A set of cells of the grid has no more cells than the grid. *)
Lemma size_in_grid (h w : Z) (m : gset Cell) :
  set_Forall (in_bounds h w) m → (size m ≤ Z.to_nat h * Z.to_nat w)%nat.
Proof.
  intros Hm. rewrite <- grid_length.
  etransitivity; [|apply size_list_to_set_le].
  apply subseteq_size. intros p Hp.
  apply elem_of_list_to_set, elem_of_grid. by apply Hm.
Qed.

Lemma place_no_index_error h w n draws b m :
  Board.agrees h w b m →
  Board.place h w n draws b m ≠ Board.Err Board.IndexError.
Proof.
  revert b m. induction draws as [|[r1 r2] draws IH]; intros b m Ha; simpl;
    case_bool_decide as Hn; try done.
  destruct (Board.randrange h r1) as [i|] eqn:Hi; [|done].
  destruct (Board.randrange w r2) as [j|] eqn:Hj; [|by destruct (Board.randrange w r2)].
  apply randrange_Some in Hi, Hj.
  assert (in_bounds h w (i, j)) as Hb by done.
  rewrite (Board.agrees_cells _ _ _ _ Ha i j Hb).
  case_bool_decide; [by apply IH|].
  destruct (Board.set b i j true) as [b1|] eqn:Hset.
  - apply IH. by eapply agrees_set.
  - exfalso. destruct Ha as [Hr Hc _ _]. unfold Board.set in Hset.
    rewrite position_inside in Hset by lia. simpl in Hset.
    destruct (lookup_lt_is_Some_2 b (Z.to_nat i)) as [row Hrow]; [lia|].
    rewrite Hrow in Hset. simpl in Hset.
    pose proof (Forall_lookup_1 _ _ _ _ Hc Hrow) as Hlen. simpl in Hlen.
    rewrite position_inside in Hset by lia. done.
Qed.

(** ** The constructor *)

(** A 2 x 2 board with one mine, placed by the draws 3 and 1. *)
Definition b_game : Board.t :=
  Board.mk 2 2 [[false; false]; [false; true]] {[(1, 1)]} ∅.

(** When [Minesweeper(height, width, mines)] returns, the game has the
    height and the width given and exactly [mines] mines, which are no more
    than the grid has cells; the array has [height] rows of [width] cells
    and holds [True] exactly at the mines, which are cells of the grid; no
    mine is found yet, and the game is won only if it has no mine. *)
Theorem board_new_spec h w n draws g :
  Board.new h w n draws = Board.Ok g →
  Board.height g = h ∧ Board.width g = w ∧ Board.mines_found g = ∅ ∧
  Z.of_nat (size (Board.mines g)) = n ∧
  n ≤ Z.of_nat (Z.to_nat h * Z.to_nat w) ∧
  Board.agrees h w (Board.board g) (Board.mines g) ∧
  Game.well_formed (Board.view g) ∧
  Board.won g = bool_decide (n = 0).
Proof.
  unfold Board.new.
  destruct (Board.place _ _ _ _ _ _) as [[b m]| |] eqn:Hp; try done.
  intros [= <-]. simpl.
  destruct (place_agrees _ _ _ _ _ _ _ _ (agrees_empty h w) Hp) as [Ha Hn].
  pose proof (size_in_grid h w m (Board.agrees_mines _ _ _ _ Ha)) as Hle.
  split_and!; try done.
  - lia.
  - apply (Board.agrees_mines _ _ _ _ Ha).
  - unfold Board.won. simpl. apply bool_decide_ext. split.
    + intros <-. rewrite size_empty in Hn. lia.
    + intros ->. assert (size m = 0%nat) as H0 by lia.
      symmetry. by apply size_empty_inv, leibniz_equiv in H0.
Qed.

Lemma board_new_spec_witness :
  Board.height b_game = 2 ∧ Board.width b_game = 2 ∧ Board.mines_found b_game = ∅ ∧
  Z.of_nat (size (Board.mines b_game)) = 1 ∧
  1 ≤ Z.of_nat (Z.to_nat 2 * Z.to_nat 2) ∧
  Board.agrees 2 2 (Board.board b_game) (Board.mines b_game) ∧
  Game.well_formed (Board.view b_game) ∧
  Board.won b_game = bool_decide (1 = 0).
Proof.
  apply (board_new_spec 2 2 1 [(3, 1)%nat] b_game).
  vm_compute. reflexivity.
Defined.

Lemma place_done h w n draws b m :
  Z.of_nat (size m) = n → Board.place h w n draws b m = Board.Ok (b, m).
Proof. intros Hn. destruct draws; simpl; by rewrite bool_decide_eq_true_2. Qed.

Lemma place_empty_range h w n r1 r2 draws b m :
  Z.of_nat (size m) ≠ n → h ≤ 0 ∨ w ≤ 0 →
  Board.place h w n ((r1, r2) :: draws) b m = Board.Err Board.ValueError.
Proof.
  intros Hn Hhw. simpl. rewrite bool_decide_eq_false_2 by done.
  unfold Board.randrange. repeat case_bool_decide; try done; lia.
Qed.

(** The edges of the constructor: with no mine asked for it returns the
    empty board without a draw; with a mine asked for and a height or width
    that is not positive, the first [randrange] raises [ValueError]; and it
    never raises [IndexError]. *)
Theorem board_new_edges h w n draws :
  (n = 0 → Board.new h w n draws =
           Board.Ok (Board.mk h w (Board.empty_board h w) ∅ ∅)) ∧
  (n ≠ 0 → h ≤ 0 ∨ w ≤ 0 → draws ≠ [] →
   Board.new h w n draws = Board.Err Board.ValueError) ∧
  Board.new h w n draws ≠ Board.Err Board.IndexError.
Proof.
  unfold Board.new. split_and!.
  - intros ->. rewrite place_done; [done|]. by rewrite size_empty.
  - intros Hn Hhw Hd. destruct draws as [|[r1 r2] draws]; [done|].
    rewrite place_empty_range; [done| |done]. rewrite size_empty. lia.
  - pose proof (place_no_index_error h w n draws _ _ (agrees_empty h w)) as Hne.
    destruct (Board.place _ _ _ _ _ _) as [[b m]|e|]; try done.
    intros [= ->]. done.
Qed.

(** ** Reading the board *)

(** The array of the game agrees with its set of mines. *)
Definition board_valid (g : Board.t) : Prop :=
  Board.agrees (Board.height g) (Board.width g) (Board.board g) (Board.mines g).

Lemma board_new_valid h w n draws g :
  Board.new h w n draws = Board.Ok g →
  board_valid g ∧ Board.height g = h ∧ Board.width g = w.
Proof.
  unfold Board.new, board_valid.
  destruct (Board.place _ _ _ _ _ _) as [[b m]| |] eqn:Hp; try done.
  intros [= <-]. simpl.
  by destruct (place_agrees _ _ _ _ _ _ _ _ (agrees_empty h w) Hp) as [Ha _].
Qed.

Lemma b_game_valid : board_valid b_game.
Proof.
  apply (board_new_valid 2 2 1 [(3, 1)%nat] b_game). vm_compute. reflexivity.
Qed.

Lemma board_get_positions h w b m i j :
  Board.agrees h w b m →
  Board.get b i j =
  match Board.position (Z.to_nat h) i, Board.position (Z.to_nat w) j with
  | Some ki, Some kj => row ← b !! ki; row !! kj
  | _, _ => None
  end.
Proof.
  intros [Hr Hc _ _]. unfold Board.get, Board.index. rewrite Hr.
  destruct (Board.position (Z.to_nat h) i) as [ki|] eqn:Hi; simpl; [|done].
  apply position_lt in Hi.
  destruct (lookup_lt_is_Some_2 b ki) as [row Hrow]; [lia|].
  rewrite Hrow. simpl.
  pose proof (Forall_lookup_1 _ _ _ _ Hc Hrow) as Hlen. simpl in Hlen.
  rewrite Hlen. by destruct (Board.position (Z.to_nat w) j).
Qed.

Lemma board_get_None h w b m i j :
  Board.agrees h w b m →
  Board.get b i j = None ↔ ¬ (- h ≤ i < h ∧ - w ≤ j < w).
Proof.
  intros Ha. rewrite (board_get_positions h w b m) by done.
  destruct Ha as [Hr Hc _ _].
  destruct (Board.position (Z.to_nat h) i) as [ki|] eqn:Hi.
  - destruct (Board.position (Z.to_nat w) j) as [kj|] eqn:Hj.
    + pose proof (position_lt _ _ _ Hi). pose proof (position_lt _ _ _ Hj).
      apply position_Some in Hi, Hj.
      destruct (lookup_lt_is_Some_2 b ki) as [row Hrow]; [lia|].
      rewrite Hrow. simpl.
      pose proof (Forall_lookup_1 _ _ _ _ Hc Hrow) as Hlen. simpl in Hlen.
      destruct (lookup_lt_is_Some_2 row kj) as [v Hv]; [lia|].
      rewrite Hv. split; [done|]. intros Hn. destruct Hn. lia.
    + apply position_None in Hj. apply position_Some in Hi.
      split; [|done]. intros _. lia.
  - apply position_None in Hi. split; [|done]. intros _. lia.
Qed.

(** [is_mine] on a game whose array agrees with its mines: for a cell of
    the grid it says whether the cell is a mine; it raises [IndexError]
    exactly for a row outside [-height, height) or a column outside
    [-width, width); and a negative index reads the cell [height] rows
    further down or [width] columns further right. *)
Theorem board_is_mine_spec g :
  board_valid g →
  (∀ c, in_bounds (Board.height g) (Board.width g) c →
     Board.is_mine g c = Board.Ok (Game.is_mine (Board.view g) c)) ∧
  (∀ c, Board.is_mine g c = Board.Err Board.IndexError ↔
     ¬ (- Board.height g ≤ c.1 < Board.height g ∧
        - Board.width g ≤ c.2 < Board.width g)) ∧
  (∀ i j, in_bounds (Board.height g) (Board.width g) (i, j) →
     Board.is_mine g (i - Board.height g, j) = Board.is_mine g (i, j) ∧
     Board.is_mine g (i, j - Board.width g) = Board.is_mine g (i, j)).
Proof.
  intros Ha. split_and!.
  - intros [i j] Hb. unfold Board.is_mine. simpl.
    by rewrite (Board.agrees_cells _ _ _ _ Ha i j Hb).
  - intros c. unfold Board.is_mine.
    rewrite <- (board_get_None _ _ _ _ c.1 c.2 Ha).
    destruct (Board.get _ _ _); split; done.
  - intros i j [Hi Hj]. simpl in Hi, Hj. unfold Board.is_mine. simpl.
    rewrite !(board_get_positions _ _ _ _ _ _ Ha).
    assert (Board.position (Z.to_nat (Board.height g)) (i - Board.height g) =
            Board.position (Z.to_nat (Board.height g)) i) as ->.
    { rewrite (position_inside _ i) by lia. apply position_Some. right.
      split; [lia|]. f_equal. lia. }
    assert (Board.position (Z.to_nat (Board.width g)) (j - Board.width g) =
            Board.position (Z.to_nat (Board.width g)) j) as ->.
    { rewrite (position_inside _ j) by lia. apply position_Some. right.
      split; [lia|]. f_equal. lia. }
    done.
Qed.

Lemma board_is_mine_spec_witness :
  (∀ c, in_bounds (Board.height b_game) (Board.width b_game) c →
     Board.is_mine b_game c = Board.Ok (Game.is_mine (Board.view b_game) c)) ∧
  (∀ c, Board.is_mine b_game c = Board.Err Board.IndexError ↔
     ¬ (- Board.height b_game ≤ c.1 < Board.height b_game ∧
        - Board.width b_game ≤ c.2 < Board.width b_game)) ∧
  (∀ i j, in_bounds (Board.height b_game) (Board.width b_game) (i, j) →
     Board.is_mine b_game (i - Board.height b_game, j) = Board.is_mine b_game (i, j) ∧
     Board.is_mine b_game (i, j - Board.width b_game) = Board.is_mine b_game (i, j)).
Proof.
  apply (board_is_mine_spec b_game).
  apply (board_new_valid 2 2 1 [(3, 1)%nat] b_game). vm_compute. reflexivity.
Defined.

Lemma board_nearby_foldl g c l z :
  board_valid g →
  foldl (Board.nearby_step g c) (Board.Ok z) l =
  Board.Ok (foldl (Game.nearby_step (Board.view g) c) z l).
Proof.
  intros Ha. revert z. induction l as [|[i j] l IH]; intros z; simpl; [done|].
  unfold Game.nearby_step at 2. simpl.
  case_bool_decide; [apply IH|].
  case_bool_decide as Hb; [|apply IH].
  rewrite (Board.agrees_cells _ _ _ _ Ha i j Hb).
  case_bool_decide; apply IH.
Qed.

(** [nearby_mines] on such a game never raises, and gives the number the
    set of mines gives: the mines of the grid among the 8 neighbours. *)
Theorem board_nearby_mines_spec g c :
  board_valid g →
  Board.nearby_mines g c = Board.Ok (Game.nearby_mines (Board.view g) c) ∧
  Board.nearby_mines g c =
    Board.Ok (Z.of_nat (size (neighbours c ∩ Board.mines g))).
Proof.
  intros Ha.
  assert (Board.nearby_mines g c = Board.Ok (Game.nearby_mines (Board.view g) c)) as Heq
    by (by apply board_nearby_foldl).
  split; [done|]. rewrite Heq. f_equal.
  apply (nearby_mines_size (Board.view g)). apply (Board.agrees_mines _ _ _ _ Ha).
Qed.

Lemma board_nearby_mines_spec_witness :
  Board.nearby_mines b_game (0, 0) =
    Board.Ok (Game.nearby_mines (Board.view b_game) (0, 0)) ∧
  Board.nearby_mines b_game (0, 0) =
    Board.Ok (Z.of_nat (size (neighbours (0, 0) ∩ Board.mines b_game))).
Proof.
  apply (board_nearby_mines_spec b_game (0, 0)).
  apply (board_new_valid 2 2 1 [(3, 1)%nat] b_game). vm_compute. reflexivity.
Defined.

(** ** A solver driven by the game *)

(** The loop of a driver: a cell of the grid is chosen, [is_mine] says it
    is none, [nearby_mines] gives its count, and both go to
    [add_knowledge]. *)
Inductive driven (g : Board.t) : AI → Prop :=
  | driven_init : driven g (init (Board.height g) (Board.width g))
  | driven_observe a c n fuel a' :
      driven g a →
      in_bounds (Board.height g) (Board.width g) c →
      Board.is_mine g c = Board.Ok false →
      Board.nearby_mines g c = Board.Ok n →
      add_knowledge fuel a c n = Some a' →
      driven g a'
  | driven_safe_move a : driven g a → driven g (make_safe_move a).2
  | driven_random_move a r : driven g a → driven g (make_random_move r a).2.

Lemma driven_played g a : board_valid g → driven g a → played (Board.view g) a.
Proof.
  intros Hv. induction 1 as [|a c n fuel a' _ IH Hb Hm Hn Hadd|a _ IH|a r _ IH].
  - apply played_init.
  - apply (played_observe (Board.view g) a c fuel a' IH).
    + destruct c as [i j]. unfold Board.is_mine in Hm. simpl in Hm.
      rewrite (Board.agrees_cells _ _ _ _ Hv i j Hb) in Hm.
      unfold Game.is_mine. simpl. by injection Hm.
    + pose proof (board_nearby_foldl g c (window c) 0 Hv) as Hf.
      unfold Board.nearby_mines in Hn. rewrite Hf in Hn.
      injection Hn as <-. exact Hadd.
  - by apply played_safe_move.
  - by apply played_random_move.
Qed.

(** For a game the constructor returned and a solver driven by it: the
    known mines are mines of the game, the known safe cells and the moves
    made are none, the move [make_safe_move] proposes is no mine, and the
    next call of [add_knowledge] for a cell that is no mine returns. *)
Theorem driven_sound h w n draws g a :
  Board.new h w n draws = Board.Ok g → driven g a →
  mines a ⊆ Board.mines g ∧ safes a ## Board.mines g ∧
  moves_made a ## Board.mines g ∧
  (∀ c, (make_safe_move a).1 = Some c → c ∉ Board.mines g) ∧
  (∀ c k, in_bounds h w c → Board.is_mine g c = Board.Ok false →
     Board.nearby_mines g c = Board.Ok k →
     ∃ fuel a', add_knowledge fuel a c k = Some a').
Proof.
  intros Hnew Ha. destruct (board_new_valid _ _ _ _ _ Hnew) as (Hv & <- & <-).
  pose proof (driven_played g a Hv Ha) as Hp.
  assert (Game.well_formed (Board.view g)) as Hwf
    by apply (Board.agrees_mines _ _ _ _ Hv).
  destruct (played_consistent _ _ Hwf Hp) as [_ _ Hm Hs Hmv HF].
  simpl in Hm, Hs, Hmv. split_and!; try done.
  - intros c Hc. unfold make_safe_move in Hc. simpl in Hc.
    apply head_filter_Some in Hc as [Hin%elem_of_elements _]. set_solver.
  - intros c k Hb Hmine Hk.
    assert (Game.is_mine (Board.view g) c = false) as Hc.
    { destruct c as [i j]. unfold Board.is_mine in Hmine. simpl in Hmine.
      rewrite (Board.agrees_cells _ _ _ _ Hv i j Hb) in Hmine.
      unfold Game.is_mine. simpl. by injection Hmine. }
    assert (k = Game.nearby_mines (Board.view g) c) as ->.
    { pose proof (board_nearby_foldl g c (window c) 0 Hv) as Hf.
      unfold Board.nearby_mines in Hk. rewrite Hf in Hk. by injection Hk. }
    pose proof (played_consistent _ _ Hwf Hp) as Hcons.
    pose proof (consistent_extraction _ _
                  (consistent_observe _ a c Hwf Hcons Hc)) as H1.
    destruct (subset_loop_terminates_holds _ _ (cons_knowledge _ _ H1))
      as (fuel & k' & Hk').
    exists fuel. unfold add_knowledge. cbv zeta. rewrite Hk'. eauto.
Qed.

(** The 2 x 2 game above after the observation of (0, 0). *)
Definition b_state1 : AI :=
  {| height := 2; width := 2; moves_made := {[(0, 0)]}; mines := ∅;
     safes := {[(0, 0)]};
     knowledge := [mkSentence {[(0, 1); (1, 0); (1, 1)]} 1] |}.

Lemma driven_sound_witness :
  mines b_state1 ⊆ Board.mines b_game ∧ safes b_state1 ## Board.mines b_game ∧
  moves_made b_state1 ## Board.mines b_game ∧
  (∀ c, (make_safe_move b_state1).1 = Some c → c ∉ Board.mines b_game) ∧
  (∀ c k, in_bounds 2 2 c → Board.is_mine b_game c = Board.Ok false →
     Board.nearby_mines b_game c = Board.Ok k →
     ∃ fuel a', add_knowledge fuel b_state1 c k = Some a').
Proof.
  apply (driven_sound 2 2 1 [(3, 1)%nat] b_game b_state1).
  - vm_compute. reflexivity.
  - apply (driven_observe b_game (init 2 2) (0, 0) 1 10).
    + apply driven_init.
    + by vm_compute.
    + vm_compute. reflexivity.
    + vm_compute. reflexivity.
    + vm_compute. reflexivity.
Defined.

(** ** Marking a set of cells

    The loops of the extraction pass run over a Python set, whose order is
    not fixed; the model runs over [elements].  What the loops leave does
    not depend on the order, nor on a cell coming twice. *)

Lemma Sent_mark_safes_fold l s :
  foldl (λ x c, Sent.mark_safe c x) s l =
  mkSentence (cells s ∖ list_to_set l) (count s).
Proof.
  revert s. induction l as [|c l IH]; intros s; simpl.
  - apply sentence_eq; simpl; [set_solver|done].
  - rewrite IH. apply sentence_eq; simpl.
    + rewrite Sent_mark_safe_cells. set_solver.
    + apply Sent_mark_safe_count.
Qed.

Lemma Sent_mark_mines_fold l s :
  foldl (λ x c, Sent.mark_mine c x) s l =
  mkSentence (cells s ∖ list_to_set l)
             (count s - Z.of_nat (size (cells s ∩ list_to_set l))).
Proof.
  revert s. induction l as [|c l IH]; intros s; simpl.
  - apply sentence_eq; simpl; [set_solver|].
    replace (cells s ∩ ∅) with (∅ : gset Cell) by set_solver.
    rewrite size_empty. lia.
  - rewrite IH. apply sentence_eq; simpl.
    + rewrite Sent_mark_mine_cells. set_solver.
    + rewrite Sent_mark_mine_cells, Sent_mark_mine_count.
      assert (cells s ∩ ({[c]} ∪ list_to_set l) =
              (cells s ∩ {[c]}) ∪ ((cells s ∖ {[c]}) ∩ list_to_set l)) as ->.
      { apply set_eq. intros p. destruct (decide (p = c)); set_solver. }
      rewrite (size_union (cells s ∩ {[c]}) ((cells s ∖ {[c]}) ∩ list_to_set l))
        by set_solver.
      case_bool_decide as Hin.
      * assert (cells s ∩ {[c]} = {[c]}) as ->.
        { apply set_eq. intros p.
          rewrite elem_of_intersection, elem_of_singleton. naive_solver. }
        rewrite size_singleton. lia.
      * assert (cells s ∩ {[c]} = ∅) as ->.
        { apply set_eq. intros p.
          rewrite elem_of_intersection, elem_of_singleton, elem_of_empty.
          naive_solver. }
        rewrite size_empty. lia.
Qed.

Lemma mark_safes_fold l a :
  foldl (λ x c, mark_safe c x) a l =
  {| height := height a; width := width a; moves_made := moves_made a;
     mines := mines a; safes := list_to_set l ∪ safes a;
     knowledge := (λ s, mkSentence (cells s ∖ list_to_set l) (count s))
                    <$> knowledge a |}.
Proof.
  revert a. induction l as [|c l IH]; intros a; simpl.
  - destruct a as [h w mv mi sa k]. simpl. f_equal; [set_solver|].
    rewrite <- (list_fmap_id k) at 1. apply list_fmap_ext.
    intros i s _. simpl. apply sentence_eq; simpl; [set_solver|done].
  - rewrite IH. simpl. f_equal; [set_solver|].
    rewrite <- list_fmap_compose. apply list_fmap_ext. intros i s _. simpl.
    apply sentence_eq; simpl.
    + rewrite Sent_mark_safe_cells. set_solver.
    + apply Sent_mark_safe_count.
Qed.

Lemma mark_mines_fold l a :
  foldl (λ x c, mark_mine c x) a l =
  {| height := height a; width := width a; moves_made := moves_made a;
     mines := list_to_set l ∪ mines a; safes := safes a;
     knowledge :=
       (λ s, mkSentence (cells s ∖ list_to_set l)
                        (count s - Z.of_nat (size (cells s ∩ list_to_set l))))
         <$> knowledge a |}.
Proof.
  revert a. induction l as [|c l IH]; intros a.
  - destruct a as [h w mv mi sa k]. simpl. f_equal; [set_solver|].
    rewrite <- (list_fmap_id k) at 1. apply list_fmap_ext.
    intros i s _.
    transitivity (foldl (λ x c0, Sent.mark_mine c0 x) s []); [done|].
    by rewrite Sent_mark_mines_fold.
  - change (foldl (λ x c0, mark_mine c0 x) a (c :: l))
      with (foldl (λ x c0, mark_mine c0 x) (mark_mine c a) l).
    rewrite IH. unfold mark_mine at 1 2 3 4 5 6. simpl.
    f_equal; [set_solver|].
    rewrite <- list_fmap_compose. apply list_fmap_ext. intros i s _.
    transitivity (foldl (λ x c0, Sent.mark_mine c0 x) s (c :: l)).
    + simpl. by rewrite Sent_mark_mines_fold.
    + by rewrite Sent_mark_mines_fold.
Qed.

(** Marking the cells of a list safe, one after the other, puts them all in
    the safes and takes them out of every sentence, the counts as they were;
    marking them as mines puts them in the mines, takes them out of every
    sentence and lowers each count by the number of cells taken out of the
    sentence.  Two lists with the same cells leave the same state. *)
Theorem marking_a_set l a :
  safes (foldl (λ x c, mark_safe c x) a l) = list_to_set l ∪ safes a ∧
  knowledge (foldl (λ x c, mark_safe c x) a l) =
    ((λ s, mkSentence (cells s ∖ list_to_set l) (count s)) <$> knowledge a) ∧
  mines (foldl (λ x c, mark_mine c x) a l) = list_to_set l ∪ mines a ∧
  knowledge (foldl (λ x c, mark_mine c x) a l) =
    ((λ s, mkSentence (cells s ∖ list_to_set l)
                      (count s - Z.of_nat (size (cells s ∩ list_to_set l))))
       <$> knowledge a) ∧
  (∀ l', list_to_set l' =@{gset Cell} list_to_set l →
     foldl (λ x c, mark_safe c x) a l' = foldl (λ x c, mark_safe c x) a l ∧
     foldl (λ x c, mark_mine c x) a l' = foldl (λ x c, mark_mine c x) a l).
Proof.
  rewrite mark_safes_fold, mark_mines_fold. simpl. split_and!; try done.
  intros l' Heq. rewrite !mark_safes_fold, !mark_mines_fold. by rewrite Heq.
Qed.

(** ** The size of an observation's sentence *)

(** Lines 197-224 of [add_knowledge] leave one sentence more than there
    was; the sentence they append has at most 8 cells, the observed cell is
    none of them, and its count is the given count lowered by at most 8. *)
Theorem observation_bounds a c n :
  length (knowledge (observe a c n)) = S (length (knowledge a)) ∧
  ∃ s, last (knowledge (observe a c n)) = Some s ∧
       (size (cells s) ≤ 8)%nat ∧ c ∉ cells s ∧ n - 8 ≤ count s ≤ n.
Proof.
  rewrite observe_knowledge. split.
  - rewrite length_app, length_fmap. simpl. lia.
  - exists (mkSentence (undetermined a c) (adjusted_count a c n)).
    rewrite last_snoc. simpl.
    pose proof (neighbours_size c) as H8.
    assert (undetermined a c ⊆ neighbours c) as Hsub.
    { unfold undetermined. intros p [_ Hp]%elem_of_filter. set_solver. }
    split_and!.
    + done.
    + rewrite <- H8. by apply subseteq_size.
    + intros Hc. apply Hsub in Hc. by apply elem_of_neighbours in Hc as [_ ?].
    + unfold adjusted_count.
      assert (size (neighbours c ∩ mines a) ≤ size (neighbours c))%nat
        by (apply subseteq_size; set_solver).
      lia.
    + unfold adjusted_count. lia.
Qed.
